(** * nb2plots: the doctree -> Markdown and doctree -> notebook translators

    A shallow embedding of [nb2plots/doctree2md.py] and
    [nb2plots/doctree2nb.py], with the properties of the rendering engine
    stated and proved over it.

    Layout: Python string primitives, a backtracking regular-expression
    matcher (for [_EXAMPLE_RE]), the docutils node model and its traversal,
    the Markdown translator, the notebook translator, and then the
    theorems. *)

From Stdlib Require Import ZArith Lia DecimalString.
From stdpp Require Import base list strings gmap.

Open Scope Z_scope.

(** ** Python strings

    A Python (unicode) string is a sequence of code points. *)

Definition char := N.
Definition str := list char.

(** Literals: every character of a Rocq string is read as its code point. *)
Definition chr (a : Ascii.ascii) : char := Ascii.N_of_ascii a.
Definition lit (x : string) : str := map chr (String.list_ascii_of_string x).

Definition LF : char := 10%N.
Definition CR : char := 13%N.
Definition TAB : char := 9%N.
Definition SP : char := 32%N.
Definition DQ : char := 34%N.

(** The line break ['\n'] as a string. *)
Definition eol : str := [LF].

Definition str_eqb (a b : str) : bool := bool_decide (a = b).

(** [sep.join(parts)] *)
Fixpoint join (sep : str) (parts : list str) : str :=
  match parts with
  | [] => []
  | [p] => p
  | p :: ps => p ++ sep ++ join sep ps
  end.

(** [''.join(parts)] *)
Definition join0 (parts : list str) : str := concat parts.

(** [n * s] for an integer [n]: empty when [n <= 0]. *)
Fixpoint repeat_str (n : nat) (s : str) : str :=
  match n with
  | O => []
  | S n' => s ++ repeat_str n' s
  end.

Definition str_mul (n : Z) (s : str) : str := repeat_str (Z.to_nat n) s.

(** [c.isspace()] for one code point: the characters CPython's
    [Py_UNICODE_ISSPACE] accepts. *)
Definition isspace (c : char) : bool :=
  ((9 <=? c) && (c <=? 13) || (28 <=? c) && (c <=? 32)
   || (c =? 133) || (c =? 160) || (c =? 5760)
   || (8192 <=? c) && (c <=? 8202)
   || (c =? 8232) || (c =? 8233) || (c =? 8239) || (c =? 8287)
   || (c =? 12288))%N.

Fixpoint lstrip (s : str) : str :=
  match s with
  | [] => []
  | c :: s' => if isspace c then lstrip s' else s
  end.

(** [s.rstrip()], right to left: a character is kept when something
    after it is kept or when it is not white space. *)
Fixpoint rstrip (s : str) : str :=
  match s with
  | [] => []
  | c :: s' =>
      match rstrip s' with
      | [] => if isspace c then [] else [c]
      | r => c :: r
      end
  end.

(** [s.strip()] *)
Definition strip (s : str) : str := rstrip (lstrip s).

(** The line boundaries of [str.splitlines]: [\n], [\r], [\v], [\f],
    [\x1c], [\x1d], [\x1e], [\x85], U+2028, U+2029; the pair [\r\n]
    counts as one boundary. *)
Definition is_linebreak (c : char) : bool :=
  ((10 <=? c) && (c <=? 13) || (28 <=? c) && (c <=? 30)
   || (c =? 133) || (c =? 8232) || (c =? 8233))%N.

(** [s.splitlines(keepends)]; [cur] holds the characters of the line being
    read, latest first. *)
Fixpoint splitlines_from (keepends : bool) (cur : str) (s : str) : list str :=
  match s with
  | [] => match cur with [] => [] | _ => [rev cur] end
  | c :: s' =>
      if is_linebreak c then
        match s' with
        | c' :: s'' =>
            if ((c =? CR) && (c' =? LF))%N then
              rev (if keepends then c' :: c :: cur else cur)
                :: splitlines_from keepends [] s''
            else
              rev (if keepends then c :: cur else cur)
                :: splitlines_from keepends [] s'
        | [] => [rev (if keepends then c :: cur else cur)]
        end
      else splitlines_from keepends (c :: cur) s'
  end.

Definition splitlines (keepends : bool) (s : str) : list str :=
  splitlines_from keepends [] s.

(** [s.split('\n')]: the pieces between line feeds, always at least one. *)
Fixpoint split_lf_from (cur : str) (s : str) : list str :=
  match s with
  | [] => [rev cur]
  | c :: s' =>
      if (c =? LF)%N then rev cur :: split_lf_from [] s'
      else split_lf_from (c :: cur) s'
  end.

Definition split_lf (s : str) : list str := split_lf_from [] s.

(** [s.expandtabs()] with the default tab size 8; [col] is the column,
    reset by [\n] and [\r]. *)
Fixpoint expandtabs_from (col : nat) (s : str) : str :=
  match s with
  | [] => []
  | c :: s' =>
      if (c =? TAB)%N then
        let incr := (8 - col mod 8)%nat in
        repeat SP incr ++ expandtabs_from (col + incr) s'
      else if ((c =? LF) || (c =? CR))%N then c :: expandtabs_from 0 s'
      else c :: expandtabs_from (S col) s'
  end.

Definition expandtabs (s : str) : str := expandtabs_from 0 s.

(** [s[n:]] for [n >= 0] *)
Definition slice_from (n : nat) (s : str) : str := drop n s.

(** ['%s' % n] for an integer. *)
Definition str_of_Z (n : Z) : str :=
  lit (DecimalString.NilZero.string_of_int (Z.to_int n)).

(** [textwrap.dedent(text)] (Python 3 standard library), read line by
    line: a line of blanks and tabs only becomes empty; the margin is the
    longest run of leading blanks and tabs common to the other non-empty
    lines; the margin is removed from the front of every line that starts
    with it. *)
Definition is_sp_tab (c : char) : bool := ((c =? SP) || (c =? TAB))%N.

Fixpoint leading_ws (l : str) : str :=
  match l with
  | c :: l' => if is_sp_tab c then c :: leading_ws l' else []
  | [] => []
  end.

Fixpoint startswith (s p : str) : bool :=
  match p, s with
  | [], _ => true
  | c :: p', d :: s' => (c =? d)%N && startswith s' p'
  | _ :: _, [] => false
  end.

Fixpoint common_prefix (a b : str) : str :=
  match a, b with
  | x :: a', y :: b' => if (x =? y)%N then x :: common_prefix a' b' else []
  | _, _ => []
  end.

Definition margin_step (margin : option str) (indent : str) : option str :=
  match margin with
  | None => Some indent
  | Some m =>
      if startswith indent m then Some m
      else if startswith m indent then Some indent
      else Some (common_prefix m indent)
  end.

Definition remove_margin (margin : str) (l : str) : str :=
  if startswith l margin then drop (length margin) l else l.

Definition dedent (text : str) : str :=
  let lines := map (fun l => if forallb is_sp_tab l then [] else l)
                   (split_lf text) in
  let indents := map leading_ws
                     (filter (fun l => l <> []) lines) in
  match fold_left margin_step indents None with
  | Some (c :: m) => join eol (map (remove_margin (c :: m)) lines)
  | _ => join eol lines
  end.

(** ** Regular expressions

    The fragment of Python's [re] that [_EXAMPLE_RE] is written in, with
    [re.MULTILINE] anchors, matched the way [re] does it: leftmost, greedy,
    by backtracking. *)
Module Re.

Inductive regex :=
| Eps                                   (* the empty pattern *)
| Lit (c : char)                        (* one literal character *)
| Dot                                   (* [.]: anything but a line feed *)
| Bol                                   (* [^] *)
| Eol                                   (* [$] *)
| Seq (a b : regex)                     (* [ab] *)
| Star (a : regex)                      (* [a*], greedy *)
| Opt (a : regex)                       (* [a?], greedy *)
| NegLook (a : regex)                   (* [(?!a)] *)
| Group (name : string) (a : regex).    (* [(?P<name>a)] *)

(** [a+] *)
Definition Plus (a : regex) : regex := Seq a (Star a).

(** A literal string. *)
Definition Lits (s : str) : regex := foldr (fun c r => Seq (Lit c) r) Eps s.

(** Where the matcher stands in the subject: the character behind it, the
    text ahead of it, and the groups closed so far (latest first). *)
Record cursor := Cursor {
  prev : option char;
  rest : str;
  groups : list (string * str)
}.

Definition advance (c : char) (s' : str) (st : cursor) : cursor :=
  Cursor (Some c) s' (groups st).

Definition at_bol (st : cursor) : bool :=
  match prev st with None => true | Some c => (c =? LF)%N end.

Definition at_eol (st : cursor) : bool :=
  match rest st with [] => true | c :: _ => (c =? LF)%N end.

(** The text between two positions of one subject. *)
Definition consumed (st st' : cursor) : str :=
  take (length (rest st) - length (rest st')) (rest st).

Definition set_group (name : string) (v : str) (st : cursor) : cursor :=
  Cursor (prev st) (rest st) ((name, v) :: groups st).

Fixpoint assoc (name : string) (gs : list (string * str)) : option str :=
  match gs with
  | [] => None
  | (n, v) :: gs' => if String.eqb n name then Some v else assoc name gs'
  end.

(** [m.group(name)]; [None] when the group took no part in the match. *)
Definition group (m : cursor) (name : string) : option str :=
  assoc name (groups m).

(** [rmatch r st k]: match [r] at [st], then go on with [k]; a failure of
    [k] makes the matcher try its next alternative.  A repetition takes as
    many iterations as it can and gives them back one by one; an iteration
    that consumes nothing is not taken. *)
Fixpoint rmatch (r : regex) (st : cursor) (k : cursor -> option cursor)
  {struct r} : option cursor :=
  match r with
  | Eps => k st
  | Lit c =>
      match rest st with
      | d :: s' => if (c =? d)%N then k (advance d s' st) else None
      | [] => None
      end
  | Dot =>
      match rest st with
      | d :: s' => if (d =? LF)%N then None else k (advance d s' st)
      | [] => None
      end
  | Bol => if at_bol st then k st else None
  | Eol => if at_eol st then k st else None
  | Seq a b => rmatch a st (fun st' => rmatch b st' k)
  | Star a =>
      (fix star (n : nat) (st : cursor) {struct n} : option cursor :=
         let more :=
           match n with
           | O => None
           | S n' =>
               rmatch a st (fun st' =>
                 if (length (rest st') <? length (rest st))%nat
                 then star n' st' else None)
           end in
         match more with
         | Some m => Some m
         | None => k st
         end) (length (rest st)) st
  | Opt a =>
      match rmatch a st k with
      | Some m => Some m
      | None => k st
      end
  | NegLook a =>
      match rmatch a st Some with
      | Some _ => None
      | None => k st
      end
  | Group name a =>
      rmatch a st (fun st' => k (set_group name (consumed st st') st'))
  end.

(** [pattern.match(subject, pos)]: a match that starts where [st] stands. *)
Definition match_at (r : regex) (st : cursor) : option cursor :=
  rmatch r (Cursor (prev st) (rest st) []) Some.

(** [pattern.finditer(subject)]: the matches from left to right, each
    search starting where the previous match ended.  After a match that
    consumed nothing the scan moves on by one character. *)
Fixpoint scan (n : nat) (r : regex) (st : cursor) : list cursor :=
  match n with
  | O => []
  | S n' =>
      let step :=
        match rest st with
        | [] => []
        | c :: s' => scan n' r (advance c s' st)
        end in
      match match_at r st with
      | Some m =>
          if (length (rest m) <? length (rest st))%nat
          then m :: scan n' r m
          else m :: step
      | None => step
      end
  end.

Definition finditer (r : regex) (subject : str) : list cursor :=
  scan (S (length subject)) r (Cursor None subject []).

(** The names of the groups of a pattern. *)
Fixpoint group_names (r : regex) : list string :=
  match r with
  | Eps | Lit _ | Dot | Bol | Eol => []
  | Seq a b => group_names a ++ group_names b
  | Star a | Opt a | NegLook a => group_names a
  | Group name a => name :: group_names a
  end.

(** What a pattern can match, without the order of the attempts:
    [matches r st st'] when [r] can take the matcher from [st] to [st'].
    A negative lookahead holds where the matcher finds no match of its
    pattern; the relation is used for what a successful match implies. *)
Inductive matches : regex -> cursor -> cursor -> Prop :=
| matches_Eps st : matches Eps st st
| matches_Lit c s' st :
    rest st = c :: s' -> matches (Lit c) st (advance c s' st)
| matches_Dot d s' st :
    rest st = d :: s' -> d <> LF -> matches Dot st (advance d s' st)
| matches_Bol st : at_bol st = true -> matches Bol st st
| matches_Eol st : at_eol st = true -> matches Eol st st
| matches_Seq a b st1 st2 st3 :
    matches a st1 st2 -> matches b st2 st3 -> matches (Seq a b) st1 st3
| matches_Star_nil a st : matches (Star a) st st
| matches_Star_cons a st1 st2 st3 :
    matches a st1 st2 -> matches (Star a) st2 st3 ->
    matches (Star a) st1 st3
| matches_Opt_none a st : matches (Opt a) st st
| matches_Opt_some a st st' : matches a st st' -> matches (Opt a) st st'
| matches_NegLook a st :
    rmatch a st Some = None -> matches (NegLook a) st st
| matches_Group name a st st' :
    matches a st st' ->
    matches (Group name a) st (set_group name (consumed st st') st').

End Re.

(** ** docutils: nodes, exceptions and the traversal *)

(** The attributes the translators read.  Every element has [classes];
    the others are present or not. *)
Record attributes := Attributes {
  classes : list str;
  refuri : option str;
  expr : option str;
  id : option str;
  line : option Z;
  type : option str;
  level : option Z;
  source : option str
}.

Definition no_attributes : attributes :=
  Attributes [] None None None None None None None.

Set Warnings "-register-all".

(** A node is a [Text] leaf or an element of some class; the class decides
    the [child_text_separator] that [astext] joins the children with. *)
Inductive node :=
| Text (data : str)
| Element (tagname : string) (child_text_separator : str)
          (attrs : attributes) (children : list node).

(** [node.__class__.__name__] *)
Definition class_name (n : node) : string :=
  match n with
  | Text _ => "Text"
  | Element tag _ _ _ => tag
  end.

Definition node_attrs (n : node) : attributes :=
  match n with
  | Text _ => no_attributes
  | Element _ _ a _ => a
  end.

(** [''.join(text.split(sep))] for a separator that is not empty: the
    occurrences of [sep], found from left to right without overlap, are
    removed; [skip] counts the characters of an occurrence that are still
    to be dropped. *)
Fixpoint remove_from (sep : str) (skip : nat) (s : str) : str :=
  match s with
  | [] => []
  | c :: s' =>
      match skip with
      | S k => remove_from sep k s'
      | O =>
          if startswith (c :: s') sep
          then remove_from sep (length sep - 1) s'
          else c :: remove_from sep 0 s'
      end
  end.

Definition remove_all (sep : str) (s : str) : str := remove_from sep 0 s.

(** [docutils.utils.unescape(text)]: the null characters that stand for
    backslash escapes are removed, each with the blank or the line feed
    it escapes. *)
Definition NUL : char := 0%N.

Definition unescape (text : str) : str :=
  remove_all [NUL] (remove_all [NUL; LF] (remove_all [NUL; SP] text)).

(** [node.astext()]: [Text.astext] is the unescaped text, [Element.astext]
    joins the texts of the children. *)
Fixpoint node_astext (n : node) : str :=
  match n with
  | Text data => unescape data
  | Element _ sep _ children => join sep (map node_astext children)
  end.

(** The exceptions that can leave a visitor method: the traversal signal
    [nodes.SkipNode] and the errors. *)
Inductive exn :=
| SkipNode
| IndexError
| KeyError
| TypeError
| NotImplementedError.

(** What a call leaves behind: the object it worked on, and the exception
    when it raised one. *)
Inductive result (T : Type) :=
| Ok (self : T)
| Raise (e : exn) (self : T).
Arguments Ok {T} self.
Arguments Raise {T} e self.

(** The object after the call, however the call ended. *)
Definition after {T : Type} (r : result T) : T :=
  match r with
  | Ok self => self
  | Raise _ self => self
  end.

(** [Node.walkabout(visitor)]: visit, then the children in order, then
    depart; [SkipNode] raised by the visit ends the node without children
    and without departure; every other exception goes up to the caller. *)
Section Walkabout.
Context {T : Type}.
Variable dispatch_visit : T -> option node -> node -> result T.
Variable dispatch_departure : T -> option node -> node -> result T.

Fixpoint walkabout (visitor : T) (parent : option node) (n : node)
  {struct n} : result T :=
  match dispatch_visit visitor parent n with
  | Raise SkipNode v => Ok v
  | Raise e v => Raise e v
  | Ok v =>
      let after_children :=
        match n with
        | Text _ => Ok v
        | Element _ _ _ children =>
            (fix walk (v : T) (cs : list node) {struct cs} : result T :=
               match cs with
               | [] => Ok v
               | c :: cs' =>
                   match walkabout v (Some n) c with
                   | Ok v' => walk v' cs'
                   | Raise e v' => Raise e v'
                   end
               end) v children
        end in
      match after_children with
      | Ok v' => dispatch_departure v' parent n
      | Raise e v' => Raise e v'
      end
  end.
End Walkabout.

(** [nodes.NodeVisitor]: a visitor class is its [visit_...] and
    [depart_...] attributes, by node class name, and the two fallbacks. *)
Section NodeVisitor.
Context {T : Type}.

(** A visitor method: the visitor, the node's parent, the node. *)
Definition visitor_method : Type := T -> option node -> node -> result T.

Record class := mkClass {
  visits : list (string * visitor_method);
  departs : list (string * visitor_method);
  unknown_visit_of : visitor_method;
  unknown_departure_of : visitor_method
}.

(** [getattr(self, prefix + name, default)]: the latest definition of a
    name comes first in the table. *)
Fixpoint getattr (tbl : list (string * visitor_method)) (name : string)
  (default : visitor_method) : visitor_method :=
  match tbl with
  | [] => default
  | (n, m) :: tbl' =>
      if String.eqb n name then m else getattr tbl' name default
  end.

Definition hasattr (tbl : list (string * visitor_method)) (name : string)
  : bool :=
  existsb (fun nm => String.eqb (fst nm) name) tbl.

(** [NodeVisitor.dispatch_visit] and [NodeVisitor.dispatch_departure] *)
Definition dispatch_visit (cls : class) : visitor_method :=
  fun self parent node =>
    getattr (visits cls) (class_name node) (unknown_visit_of cls)
      self parent node.

Definition dispatch_departure (cls : class) : visitor_method :=
  fun self parent node =>
    getattr (departs cls) (class_name node) (unknown_departure_of cls)
      self parent node.

(** [document.walkabout(visitor)] *)
Definition walk_document (cls : class) (visitor : T) (document : node)
  : result T :=
  walkabout (dispatch_visit cls) (dispatch_departure cls)
    visitor None document.
End NodeVisitor.
Arguments visitor_method T : clear implicits.
Arguments class T : clear implicits.

(** ** doctree2md.py *)
Module D2M.

(** The names of the three output lists, the keys of [_lists]. *)
Inductive section := sec_head | sec_body | sec_foot.

(** What an [IndentLevel] writes to in the end: one of the three output
    lists, or the [content] list of the level that was innermost when it
    was created, named by its place in [indent_levels]. *)
Inductive base_ref :=
| BaseList (sec : section)
| BaseContent (i : nat).

Record IndentLevel := mkIndentLevel {
  base : base_ref;
  prefix : str;
  first_prefix : str;
  content : list str
}.

(** [IndentLevel.__init__] *)
Definition IndentLevel_init (base : base_ref) (prefix : str)
  (first_prefix : option str) : IndentLevel :=
  mkIndentLevel base prefix
    (match first_prefix with None => prefix | Some fp => fp end) [].

(** [IndentLevel.append] *)
Definition IndentLevel_append (new : str) (self : IndentLevel) : IndentLevel :=
  mkIndentLevel (base self) (prefix self) (first_prefix self)
    (content self ++ [new]).

(** The values of the [_docinfo] dictionary. *)
Inductive docinfo_value :=
| DStr (s : str)
| DList (l : list str).

(** The translator object.  [indent_levels] and [list_prefixes] grow and
    shrink at their end, as the Python lists do; [warnings] is what
    [document.reporter.warning] has been called with. *)
Record Translator := mkTranslator {
  head : list str;
  body : list str;
  foot : list str;
  _warned : gset string;
  section_level : Z;
  list_prefixes : list str;
  indent_levels : list IndentLevel;
  _docinfo : gmap string docinfo_value;
  warnings : list str
}.

Definition set_head (v : list str) (t : Translator) : Translator :=
  mkTranslator v (body t) (foot t) (_warned t) (section_level t)
    (list_prefixes t) (indent_levels t) (_docinfo t) (warnings t).
Definition set_body (v : list str) (t : Translator) : Translator :=
  mkTranslator (head t) v (foot t) (_warned t) (section_level t)
    (list_prefixes t) (indent_levels t) (_docinfo t) (warnings t).
Definition set_foot (v : list str) (t : Translator) : Translator :=
  mkTranslator (head t) (body t) v (_warned t) (section_level t)
    (list_prefixes t) (indent_levels t) (_docinfo t) (warnings t).
Definition set_warned (v : gset string) (t : Translator) : Translator :=
  mkTranslator (head t) (body t) (foot t) v (section_level t)
    (list_prefixes t) (indent_levels t) (_docinfo t) (warnings t).
Definition set_section_level (v : Z) (t : Translator) : Translator :=
  mkTranslator (head t) (body t) (foot t) (_warned t) v
    (list_prefixes t) (indent_levels t) (_docinfo t) (warnings t).
Definition set_list_prefixes (v : list str) (t : Translator) : Translator :=
  mkTranslator (head t) (body t) (foot t) (_warned t) (section_level t)
    v (indent_levels t) (_docinfo t) (warnings t).
Definition set_indent_levels (v : list IndentLevel) (t : Translator)
  : Translator :=
  mkTranslator (head t) (body t) (foot t) (_warned t) (section_level t)
    (list_prefixes t) v (_docinfo t) (warnings t).
Definition set_docinfo (v : gmap string docinfo_value) (t : Translator)
  : Translator :=
  mkTranslator (head t) (body t) (foot t) (_warned t) (section_level t)
    (list_prefixes t) (indent_levels t) v (warnings t).
Definition set_warnings (v : list str) (t : Translator) : Translator :=
  mkTranslator (head t) (body t) (foot t) (_warned t) (section_level t)
    (list_prefixes t) (indent_levels t) (_docinfo t) v.

(** [self._lists[sec]]: the same list objects as [head], [body], [foot]. *)
Definition _lists (sec : section) (t : Translator) : list str :=
  match sec with
  | sec_head => head t
  | sec_body => body t
  | sec_foot => foot t
  end.

Definition set_lists (sec : section) (v : list str) (t : Translator)
  : Translator :=
  match sec with
  | sec_head => set_head v t
  | sec_body => set_body v t
  | sec_foot => set_foot v t
  end.

(** [Translator.reset] *)
Definition fresh_docinfo : gmap string docinfo_value :=
  <["title" := DStr []]> (<["subtitle" := DStr []]> (<["author" := DList []]>
  (<["date" := DStr []]> (<["copyright" := DStr []]>
  (<["version" := DStr []]> ∅))))).

Definition reset (self : Translator) : Translator :=
  mkTranslator [] [] [] (_warned self) 0 [] [] fresh_docinfo (warnings self).

(** [Translator.__init__]; [reporter_log] is what the document's reporter
    already holds. *)
Definition init (reporter_log : list str) : Translator :=
  reset (mkTranslator [] [] [] ∅ 0 [] [] ∅ reporter_log).

(** [Translator.drop_trailing_eols] *)
Definition drop_eol (L : list str) : list str :=
  match last L with
  | Some f => if str_eqb f eol then removelast L else L
  | None => L
  end.

Definition drop_trailing_eols (self : Translator) : Translator :=
  set_foot (drop_eol (foot self))
    (set_body (drop_eol (body self))
       (set_head (drop_eol (head self)) self)).

(** [Translator.astext]: the object after the call and the text. *)
Definition astext (self : Translator) : Translator * str :=
  let self := drop_trailing_eols self in
  (self, join0 (head self ++ body self ++ foot self)).

(** [Translator.get_current_output], as the fragments it holds. *)
Definition get_current_output (sec : section) (self : Translator) : list str :=
  match last (indent_levels self) with
  | Some lv => content lv
  | None => _lists sec self
  end.

(** [self.get_current_output(section).append(string)] *)
Definition add_to (sec : section) (string : str) (self : Translator)
  : Translator :=
  match last (indent_levels self) with
  | Some lv =>
      set_indent_levels
        (removelast (indent_levels self) ++ [IndentLevel_append string lv])
        self
  | None => set_lists sec (_lists sec self ++ [string]) self
  end.

(** [Translator.add] with the default [section='body'] *)
Definition add (string : str) (self : Translator) : Translator :=
  add_to sec_body string self.

(** [Translator.add_section] *)
Definition add_section (string : str) (sec : section) (self : Translator)
  : Translator :=
  set_lists sec (_lists sec self ++ [string]) self.

(** [Translator.ensure_eol] *)
Definition ensure_eol (self : Translator) : Translator :=
  match last (get_current_output sec_body self) with
  | Some frag =>
      match last frag with
      | Some c => if (c =? LF)%N then self else add eol self
      | None => self
      end
  | None => self
  end.

(** [Translator.start_level] *)
Definition start_level (prefix : str) (first_prefix : option str)
  (sec : section) (self : Translator) : Translator :=
  let base :=
    match indent_levels self with
    | [] => BaseList sec
    | _ => BaseContent (length (indent_levels self) - 1)
    end in
  set_indent_levels
    (indent_levels self ++ [IndentLevel_init base prefix first_prefix]) self.

(** [self.base.append(text)] for the base of a level that has just been
    taken off [indent_levels].  A place outside the stack would name the
    content of a level that is no longer there, a list that nothing reads:
    the append changes nothing then. *)
Definition base_append (b : base_ref) (text : str) (self : Translator)
  : Translator :=
  match b with
  | BaseList sec => set_lists sec (_lists sec self ++ [text]) self
  | BaseContent i =>
      set_indent_levels
        (alter (IndentLevel_append text) i (indent_levels self)) self
  end.

(** [IndentLevel.write]; [texts] is built by the loop over [lines[1:]]. *)
Definition IndentLevel_write (level : IndentLevel) (self : Translator)
  : Translator :=
  let string := join0 (content level) in
  let lines := splitlines true string in
  match lines with
  | [] => self
  | line0 :: others =>
      let texts :=
        fold_left
          (fun texts line =>
             if str_eqb (strip line) []
             then texts ++ [eol]
             else texts ++ [prefix level ++ line])
          others [first_prefix level ++ line0] in
      base_append (base level) (join0 texts) self
  end.

(** [Translator.finish_level] *)
Definition finish_level (self : Translator) : result Translator :=
  match last (indent_levels self) with
  | None => Raise IndexError self
  | Some level =>
      Ok (IndentLevel_write level
            (set_indent_levels (removelast (indent_levels self)) self))
  end.

Definition method : Type := visitor_method Translator.

Definition parent_is_document (parent : option node) : bool :=
  match parent with
  | Some p => String.eqb (class_name p) "document"
  | None => false
  end.

Definition pass : method := fun self _ _ => Ok self.

Definition visit_Text : method := fun self _ node =>
  let text := node_astext node in
  Ok (add text self).

Definition visit_comment : method := fun self _ node =>
  Raise SkipNode (add (lit "<!-- " ++ node_astext node ++ lit " -->" ++ eol) self).

(** [visit_docinfo_item(self, node, name)] *)
Definition visit_docinfo_item (name : string) : method := fun self _ node =>
  if String.eqb name "author" then
    match _docinfo self !! name with
    | Some (DList l) =>
        Raise SkipNode
          (set_docinfo (<[name := DList (l ++ [node_astext node])]> (_docinfo self))
             self)
    | Some (DStr _) => Raise TypeError self
    | None => Raise KeyError self
    end
  else
    Raise SkipNode
      (set_docinfo (<[name := DStr (node_astext node)]> (_docinfo self)) self).

Definition depart_paragraph : method := fun self _ _ =>
  Ok (add eol (ensure_eol self)).

Definition visit_math_block : method := fun self _ _ =>
  Ok (add (lit "$$" ++ eol) self).

Definition depart_math_block : method := fun self _ _ =>
  Ok (add (lit "$$" ++ eol ++ eol) (ensure_eol self)).

Definition visit_literal_block : method := fun self _ node =>
  let cls := classes (node_attrs node) in
  if bool_decide (lit "code" ∈ cls) then
    match cls !! 1%nat with
    | Some code_type => Ok (add (lit "```" ++ code_type ++ eol) self)
    | None => Raise IndexError self
    end
  else Ok (add (lit "```" ++ [] ++ eol) self).

Definition depart_literal_block : method := fun self _ _ =>
  Ok (add (lit "```" ++ eol ++ eol) (ensure_eol self)).

Definition visit_block_quote : method := fun self _ _ =>
  Ok (start_level (lit "> ") None sec_body self).

Definition depart_block_quote : method := fun self _ _ => finish_level self.

Definition visit_section : method := fun self _ _ =>
  Ok (set_section_level (section_level self + 1) self).

Definition depart_section : method := fun self _ _ =>
  Ok (set_section_level (section_level self - 1) self).

Definition visit_enumerated_list : method := fun self _ _ =>
  Ok (set_list_prefixes (list_prefixes self ++ [lit "1. "]) self).

Definition depart_enumerated_list : method := fun self _ _ =>
  match list_prefixes self with
  | [] => Raise IndexError self
  | _ => Ok (set_list_prefixes (removelast (list_prefixes self)) self)
  end.

Definition visit_bullet_list : method := fun self _ _ =>
  Ok (set_list_prefixes (list_prefixes self ++ [lit "* "]) self).

Definition depart_bullet_list : method := depart_enumerated_list.

Definition visit_list_item : method := fun self _ _ =>
  match last (list_prefixes self) with
  | None => Raise IndexError self
  | Some first_prefix =>
      let prefix := str_mul (Z.of_nat (length first_prefix)) [SP] in
      Ok (start_level prefix (Some first_prefix) sec_body self)
  end.

Definition depart_list_item : method := fun self _ _ => finish_level self.

Definition visit_subtitle : method := fun self parent node =>
  if parent_is_document parent
  then visit_docinfo_item "subtitle" self parent node
  else Ok self.

Definition visit_system_message : method := fun self _ node =>
  let a := node_attrs node in
  let line_txt :=
    match line a with
    | Some l => lit ", line " ++ str_of_Z l
    | None => []
    end in
  match type a, level a, source a with
  | Some ty, Some lvl, Some src =>
      Ok (add ([DQ] ++ lit "System Message: " ++ ty ++ lit "/" ++ str_of_Z lvl
               ++ lit " (" ++ src ++ lit ":" ++ line_txt ++ lit ")" ++ [DQ]
               ++ eol) self)
  | _, _, _ => Raise KeyError self
  end.

Definition visit_title : method := fun self _ node =>
  if (section_level self =? 0) then
    Ok (set_docinfo (<["title" := DStr (node_astext node)]> (_docinfo self))
          (add_section (lit "# ") sec_head self))
  else
    Ok (add (str_mul (section_level self + 1) (lit "#") ++ lit " ") self).

Definition depart_title : method := fun self _ _ =>
  Ok (add eol (ensure_eol self)).

Definition visit_transition : method := fun self _ _ =>
  Raise SkipNode (add (eol ++ lit "---" ++ eol ++ eol) self).

Definition visit_reference : method := fun self _ node =>
  match refuri (node_attrs node) with
  | None => Ok self
  | Some uri =>
      Raise SkipNode
        (add (lit "[" ++ node_astext node ++ lit "](" ++ uri ++ lit ")") self)
  end.

(** [Translator.unknown_visit] *)
Definition unknown_visit : method := fun self _ node =>
  let node_type := class_name node in
  if bool_decide (node_type ∈ _warned self) then Raise SkipNode self
  else
    Raise SkipNode
      (set_warned ({[node_type]} ∪ _warned self)
         (set_warnings
            (warnings self
             ++ [lit "The " ++ lit node_type ++ lit " element is not supported."])
            self)).

(** [NodeVisitor.unknown_departure], which the class does not override. *)
Definition unknown_departure : method := fun self _ _ =>
  Raise NotImplementedError self.

(** [_make_method(to_add)] *)
Definition _make_method (to_add : str) : method := fun self _ _ =>
  Ok (add to_add self).

Definition PREF_SUFF_ELEMENTS : list (string * (str * str)) :=
  [("emphasis", (lit "*", lit "*"));
   ("problematic", (eol ++ eol, eol ++ eol));
   ("strong", (lit "**", lit "**"));
   ("literal", (lit "`", lit "`"));
   ("math", (lit "$", lit "$"));
   ("subscript", (lit "<sub>", lit "</sub>"));
   ("superscript", (lit "<sup>", lit "</sup>"))].

Definition PASS_THRU_ELEMENTS : list string :=
  ["document"; "container"; "target"; "inline"].

(** The methods written in the class body. *)
Definition class_body : class Translator :=
  mkClass
    [("Text", visit_Text);
     ("comment", visit_comment);
     ("docinfo_item", fun self _ _ => Raise TypeError self);
     ("paragraph", pass);
     ("math_block", visit_math_block);
     ("literal_block", visit_literal_block);
     ("block_quote", visit_block_quote);
     ("section", visit_section);
     ("enumerated_list", visit_enumerated_list);
     ("bullet_list", visit_bullet_list);
     ("list_item", visit_list_item);
     ("subtitle", visit_subtitle);
     ("system_message", visit_system_message);
     ("title", visit_title);
     ("transition", visit_transition);
     ("reference", visit_reference)]
    [("Text", pass);
     ("paragraph", depart_paragraph);
     ("math_block", depart_math_block);
     ("literal_block", depart_literal_block);
     ("block_quote", depart_block_quote);
     ("section", depart_section);
     ("enumerated_list", depart_enumerated_list);
     ("bullet_list", depart_bullet_list);
     ("list_item", depart_list_item);
     ("system_message", pass);
     ("title", depart_title);
     ("reference", pass)]
    unknown_visit
    unknown_departure.

(** The decorator [add_pref_suff(pref_suff_map)]: [setattr] of a visit and
    a depart method per key. *)
Definition add_pref_suff (pref_suff_map : list (string * (str * str)))
  (cls : class Translator) : class Translator :=
  fold_left
    (fun cls '(key, (prefix, suffix)) =>
       mkClass ((key, _make_method prefix) :: visits cls)
               ((key, _make_method suffix) :: departs cls)
               (unknown_visit_of cls) (unknown_departure_of cls))
    pref_suff_map cls.

(** The decorator [add_pass_thru(pass_thrus)]; [None] is its
    [ValueError], raised for a method name that is already defined. *)
Definition add_pass_thru (pass_thrus : list string) (cls : class Translator)
  : option (class Translator) :=
  fold_left
    (fun acc element_name =>
       match acc with
       | None => None
       | Some cls =>
           if hasattr (visits cls) element_name then None
           else if hasattr (departs cls) element_name then None
           else Some (mkClass ((element_name, pass) :: visits cls)
                              ((element_name, pass) :: departs cls)
                              (unknown_visit_of cls)
                              (unknown_departure_of cls))
       end)
    pass_thrus (Some cls).

(** The class [Translator], as the two decorators leave it. *)
Definition decorated : option (class Translator) :=
  add_pass_thru PASS_THRU_ELEMENTS (add_pref_suff PREF_SUFF_ELEMENTS class_body).

Definition Translator_class : class Translator :=
  match decorated with
  | Some cls => cls
  | None => class_body
  end.

(** [Writer.translate]: the text, or the exception that ended the walk. *)
Definition translate (document : node) : exn + str :=
  match walk_document Translator_class (init []) document with
  | Ok visitor => inr (snd (astext visitor))
  | Raise e _ => inl e
  end.

End D2M.

(** ** doctree2nb.py *)
Module D2NB.
Import Re.

(** [_EXAMPLE_RE], written with [re.VERBOSE] (blanks outside a character
    class are not part of the pattern) and [re.MULTILINE]. *)
Definition spaces : regex := Star (Lit SP).                (* [[ ]*] *)

Definition PS1_line : regex :=
  Seq Bol (Seq (Group "indent" spaces) (Seq (Lits (lit ">>>")) (Star Dot))).

Definition PS2_line : regex :=
  Seq (Lit LF) (Seq spaces (Seq (Lits (lit "...")) (Star Dot))).

Definition want_line : regex :=
  Seq (NegLook (Seq spaces Eol))                           (* not blank *)
    (Seq (NegLook (Seq spaces (Lits (lit ">>>"))))         (* not PS1 *)
       (Seq (Plus Dot) (Seq Eol (Opt (Lit LF))))).         (* [.+$\n?] *)

Definition _EXAMPLE_RE : regex :=
  Seq (Group "source" (Seq PS1_line (Star PS2_line)))
    (Seq (Opt (Lit LF))
       (Group "want" (Star want_line))).

(** The body of the loop of [parse_doctest] for one match [m]; [None] is
    the [TypeError] of [len(None)] for a group that took no part. *)
Definition example_source (m : cursor) : option str :=
  match group m "indent", group m "source" with
  | Some ind, Some src =>
      let indent := length ind in
      let source_lines := splitlines false src in
      Some (join eol (map (slice_from (indent + 4)) source_lines))
  | _, _ => None
  end.

(** [parse_doctest(doctest_txt)] *)
Definition parse_doctest (doctest_txt : str) : option str :=
  let txt := dedent (expandtabs doctest_txt) in
  parts ← mapM example_source (finditer _EXAMPLE_RE txt);
  Some (join eol parts).

(** The cells of [nbformat]. *)
Inductive cell :=
| new_markdown_cell (source : str)
| new_code_cell (source : str).

(** The notebook translator: a Markdown translator with the two
    attributes the subclass adds; [_notebook] is [_notebook['cells']]. *)
Record Translator := mkTranslator {
  d2m : D2M.Translator;
  _in_nbplot : bool;
  _notebook : list cell
}.

Definition set_d2m (v : D2M.Translator) (t : Translator) : Translator :=
  mkTranslator v (_in_nbplot t) (_notebook t).
Definition set_in_nbplot (v : bool) (t : Translator) : Translator :=
  mkTranslator (d2m t) v (_notebook t).
Definition set_notebook (v : list cell) (t : Translator) : Translator :=
  mkTranslator (d2m t) (_in_nbplot t) v.

Definition method : Type := visitor_method Translator.

(** A method inherited from [d2m.Translator]. *)
Definition inherited (m : D2M.method) : method := fun self parent node =>
  match m (d2m self) parent node with
  | Ok b => Ok (set_d2m b self)
  | Raise e b => Raise e (set_d2m b self)
  end.

(** [Translator.reset] *)
Definition reset (self : Translator) : Translator :=
  set_in_nbplot false (set_d2m (D2M.reset (d2m self)) self).

(** [Translator.__init__]: the base class resets through the override,
    then the two attributes are set. *)
Definition init (reporter_log : list str) : Translator :=
  set_notebook []
    (set_in_nbplot false
       (reset (mkTranslator (D2M.mkTranslator [] [] [] ∅ 0 [] [] ∅ reporter_log)
                 false []))).

(** [Translator._add_text_block] *)
Definition _add_text_block (txt : str) (self : Translator) : Translator :=
  set_notebook (_notebook self ++ [new_markdown_cell txt]) self.

(** [Translator.flush_text] *)
Definition flush_text (self : Translator) : Translator :=
  let '(b, text) := D2M.astext (d2m self) in
  let self := set_d2m b self in
  let txt := strip text in
  let self :=
    match txt with
    | [] => self
    | _ => _add_text_block txt self
    end in
  reset self.

(** [Translator.astext]; the serializer [nbf.writes] is left out: the
    result is the notebook it is given. *)
Definition astext (self : Translator) : Translator * list cell :=
  let self := flush_text self in
  (self, _notebook self).

(** [Translator.add_code_block] *)
Definition add_code_block (txt : str) (self : Translator) : Translator :=
  let self := flush_text self in
  set_notebook (_notebook self ++ [new_code_cell txt]) self.

Definition visit_doctest_block : method := fun self _ node =>
  let doctest_txt := strip (node_astext node) in
  match doctest_txt with
  | [] => Raise SkipNode self
  | _ =>
      match parse_doctest doctest_txt with
      | Some src => Raise SkipNode (add_code_block src self)
      | None => Raise TypeError self
      end
  end.

Definition visit_only : method := fun self _ node =>
  match expr (node_attrs node) with
  | None => Raise KeyError self
  | Some e =>
      if str_eqb e (lit "markdown") then
        Raise SkipNode
          (set_d2m (D2M.add (dedent (node_astext node) ++ eol) (d2m self)) self)
      else Raise SkipNode self
  end.

Definition visit_nbplot_rendered : method := fun self _ _ =>
  Ok (set_in_nbplot true self).

Definition depart_nbplot_rendered : method := fun self _ _ =>
  Ok (set_in_nbplot false self).

Definition visit_nbplot_not_rendered : method := fun self _ _ =>
  Raise SkipNode self.

Definition visit_runrole_reference : method := fun self _ _ =>
  Raise SkipNode self.

Definition visit_literal_block : method := fun self parent node =>
  if negb (_in_nbplot self) then
    inherited D2M.visit_literal_block self parent node
  else Raise SkipNode (add_code_block (node_astext node) self).

Definition visit_mpl_hint : method := fun self _ _ =>
  Raise SkipNode (add_code_block (lit "%matplotlib inline") self).

(** The class: its own methods in front of the inherited ones. *)
Definition Translator_class : class Translator :=
  mkClass
    ([("doctest_block", visit_doctest_block);
      ("only", visit_only);
      ("nbplot_rendered", visit_nbplot_rendered);
      ("nbplot_not_rendered", visit_nbplot_not_rendered);
      ("runrole_reference", visit_runrole_reference);
      ("literal_block", visit_literal_block);
      ("mpl_hint", visit_mpl_hint)]
     ++ map (fun nm => (fst nm, inherited (snd nm)))
            (visits D2M.Translator_class))
    ([("nbplot_rendered", depart_nbplot_rendered)]
     ++ map (fun nm => (fst nm, inherited (snd nm)))
            (departs D2M.Translator_class))
    (inherited (unknown_visit_of D2M.Translator_class))
    (inherited (unknown_departure_of D2M.Translator_class)).

(** [Writer.translate]: the cells, or the exception that ended the walk. *)
Definition translate (document : node) : exn + list cell :=
  match walk_document Translator_class (init []) document with
  | Ok visitor => inr (snd (astext visitor))
  | Raise e _ => inl e
  end.

End D2NB.

(** ** The specification's side

    What the specification says in its own words, to be compared with the
    code above. *)
Module Spec.

(** A line that contains only white space (the empty line included). *)
Definition blank (l : str) : bool := forallb isspace l.

(** Dropping a single trailing fragment if and only if it is a bare line
    break. *)
Definition drops_trailing_eol (L L' : list str) : Prop :=
  (exists P, L = P ++ [eol] /\ L' = P)
  \/ ((forall P, L <> P ++ [eol]) /\ L' = L).

(** The text an indentation context becomes when it is popped: [None]
    when its content has no lines. *)
Definition materialize (prefix first_prefix : str) (content : list str)
  : option str :=
  match splitlines true (concat content) with
  | [] => None
  | first :: others =>
      Some (first_prefix ++ first
            ++ concat (map (fun l => if blank l then eol else prefix ++ l)
                           others))
  end.

(** The stack of indentation contexts is linked: the base of a level is
    the content of the level right below it, or one of the three lists for
    the outermost level. *)
Definition levels_linked (levels : list D2M.IndentLevel) : Prop :=
  forall j level, levels !! j = Some level ->
    match j with
    | O => exists sec, D2M.base level = D2M.BaseList sec
    | S j' => D2M.base level = D2M.BaseContent j'
    end.

(** The source lines of one transcript example, each without its first
    [indent + 4] characters: the indentation of the example, the prompt
    marker and one more character. *)
Definition stripped_source_lines (m : Re.cursor) : list str :=
  let indent := length (default [] (Re.group m "indent")) in
  map (drop (indent + 4))
      (splitlines false (default [] (Re.group m "source"))).

(** The heading marker of weight [w]. *)
Definition heading_marker (w : Z) : str := str_mul w (lit "#") ++ lit " ".

(** The message of the warning for a node class. *)
Definition unsupported (kind : string) : str :=
  lit "The " ++ lit kind ++ lit " element is not supported.".

(** How many warnings a translator has recorded for a node class. *)
Definition warnings_for (kind : string) (t : D2M.Translator) : nat :=
  length (filter (fun w => w = unsupported kind) (D2M.warnings t)).

(** A translator has warned once for every class in [_warned] and never
    for another. *)
Definition warned_once (t : D2M.Translator) : Prop :=
  forall kind,
    warnings_for kind t = if bool_decide (kind ∈ D2M._warned t) then 1%nat
                          else 0%nat.

(** Two translators with the same warning record. *)
Definition same_log (a b : D2M.Translator) : Prop :=
  D2M._warned a = D2M._warned b /\ D2M.warnings a = D2M.warnings b.

(** A method that leaves the warning record alone. *)
Definition keeps_log (m : D2M.method) : Prop :=
  forall self parent node, same_log (after (m self parent node)) self.

(** A method that keeps a property of the translator. *)
Definition preserves (I : D2M.Translator -> Prop) (m : D2M.method) : Prop :=
  forall self parent node, I self -> I (after (m self parent node)).

(** A node class the Markdown translator has no [visit_] method for. *)
Definition unrecognized (kind : string) : Prop :=
  hasattr (visits D2M.Translator_class) kind = false.

End Spec.

(** ** Example documents *)
Module Examples.

Definition document (children : list node) : node :=
  Element "document" (eol ++ eol) no_attributes children.

Definition paragraph (s : string) : node :=
  Element "paragraph" [] no_attributes [Text (lit s)].

Definition list_item (children : list node) : node :=
  Element "list_item" (eol ++ eol) no_attributes children.

Definition bullet_list (items : list node) : node :=
  Element "bullet_list" (eol ++ eol) no_attributes items.

(** An unordered list of the three items [a], [b], [c], the way the
    reStructuredText parser builds it: every item holds a paragraph. *)
Definition abc_list : node :=
  document [bullet_list [list_item [paragraph "a"];
                         list_item [paragraph "b"];
                         list_item [paragraph "c"]]].

(** The same list with the text directly in the items. *)
Definition abc_list_bare : node :=
  document [bullet_list [list_item [Text (lit "a")];
                         list_item [Text (lit "b")];
                         list_item [Text (lit "c")]]].

Definition title (s : string) : node :=
  Element "title" [] no_attributes [Text (lit s)].

Definition doctest_block (s : str) : node :=
  Element "doctest_block" [] no_attributes [Text s].

Definition literal_block (s : string) : node :=
  Element "literal_block" [] no_attributes [Text (lit s)].

Definition nbplot_rendered (children : list node) : node :=
  Element "nbplot_rendered" (eol ++ eol) no_attributes children.

(** A node of a class no translator knows. *)
Definition figure (children : list node) : node :=
  Element "figure" (eol ++ eol) no_attributes children.

Definition comment (s : string) : node :=
  Element "comment" [] no_attributes [Text (lit s)].

(** A translator inside one list item that holds three lines, the second
    of them a blank. *)
Definition item_level : D2M.IndentLevel :=
  D2M.mkIndentLevel (D2M.BaseList D2M.sec_body) (lit "  ") (lit "* ")
    [lit "x" ++ eol ++ lit " " ++ eol ++ lit "y"].

Definition in_item : D2M.Translator :=
  D2M.add (lit "x" ++ eol ++ lit " " ++ eol ++ lit "y")
    (D2M.start_level (lit "  ") (Some (lit "* ")) D2M.sec_body (D2M.init [])).

(** A transcript block that holds a bare prompt, and one without any
    prompt. *)
Definition bare_prompt : node := document [doctest_block (lit ">>>")].
Definition no_prompt : node := document [doctest_block (lit "hello")].

(** A plotted-output region that holds two literal blocks. *)
Definition two_blocks_in_region : node :=
  document [nbplot_rendered [literal_block "a"; literal_block "b"]].

(** A document in which the unsupported class [figure] occurs twice. *)
Definition two_figures : node :=
  document [paragraph "p"; figure [paragraph "x"]; figure []].

(** The transcript of the specification: two examples, one output line. *)
Definition transcript : str :=
  lit ">>> x = 1" ++ eol ++ lit ">>> x" ++ eol ++ lit "1" ++ eol.

End Examples.

(** ** Notions for the further properties *)
Module More.

(** The fragments of the current output. *)
Definition current (self : D2M.Translator) : list str :=
  D2M.get_current_output D2M.sec_body self.

(** Several [add] calls in a row. *)
Definition adds (fragments : list str) (self : D2M.Translator)
  : D2M.Translator :=
  fold_left (fun t s => D2M.add s t) fragments self.

(** The nesting state of a translator: the depth of the stack of
    indentation contexts, the depth of the stack of list markers, and the
    section level. *)
Definition nesting (self : D2M.Translator) : nat * nat * Z :=
  (length (D2M.indent_levels self), length (D2M.list_prefixes self),
   D2M.section_level self).

(** Two translators that differ, at most, in the list that is the
    current output: [body] when no indentation context is open, the
    content of the innermost context otherwise. *)
Definition same_but_current (self self' : D2M.Translator) : Prop :=
  D2M.head self' = D2M.head self
  /\ D2M.foot self' = D2M.foot self
  /\ D2M._warned self' = D2M._warned self
  /\ D2M.section_level self' = D2M.section_level self
  /\ D2M.list_prefixes self' = D2M.list_prefixes self
  /\ D2M._docinfo self' = D2M._docinfo self
  /\ D2M.warnings self' = D2M.warnings self
  /\ match last (D2M.indent_levels self) with
     | None => D2M.indent_levels self' = []
     | Some level =>
         D2M.body self' = D2M.body self
         /\ exists content',
              D2M.indent_levels self'
              = removelast (D2M.indent_levels self)
                ++ [D2M.mkIndentLevel (D2M.base level) (D2M.prefix level)
                      (D2M.first_prefix level) content']
     end.

(** A text whose only line boundary is the line feed. *)
Definition lf_only (s : str) : bool :=
  forallb (fun c => negb (is_linebreak c) || (c =? LF)%N) s.

(** A text without any line boundary. *)
Definition one_line (s : str) : bool :=
  forallb (fun c => negb (is_linebreak c)) s.

(** A line that ends in a line feed and holds no other line boundary. *)
Definition terminated (l : str) : bool :=
  match rev l with
  | c :: body => (c =? LF)%N && one_line body
  | [] => false
  end.

(** The lines of a text, as [splitlines(True)] gives them for a text whose
    only line boundary is the line feed: every line but the last is
    terminated, the last is terminated or is not empty and has no line
    boundary. *)
Fixpoint lines_in_order (ls : list str) : bool :=
  match ls with
  | [] => true
  | l :: ls' =>
      match ls' with
      | [] => terminated l || (one_line l && negb (bool_decide (l = [])))
      | _ => terminated l && lines_in_order ls'
      end
  end.

(** The three output lists as the Markdown translator keeps them: nothing
    in [foot], heading markers only in [head], and no indentation level
    whose base is [head] or [foot]. *)
Definition regions_kept (self : D2M.Translator) : Prop :=
  D2M.foot self = []
  /\ Forall (fun f => f = lit "# ") (D2M.head self)
  /\ Forall (fun lv => D2M.base lv <> D2M.BaseList D2M.sec_head
                       /\ D2M.base lv <> D2M.BaseList D2M.sec_foot)
       (D2M.indent_levels self).

(** A paragraph that holds one text. *)
Definition paragraph_of (t : str) : node :=
  Element "paragraph" [] no_attributes [Text t].

(** A list item that holds one paragraph. *)
Definition item_of (t : str) : node :=
  Element "list_item" (eol ++ eol) no_attributes [paragraph_of t].

(** A list of items that hold one paragraph each, numbered or not. *)
Definition list_of (ordered : bool) (texts : list str) : node :=
  Element (if ordered then "enumerated_list" else "bullet_list") []
    no_attributes (map item_of texts).

(** The marker the translator keeps for the items of a list. *)
Definition list_marker (ordered : bool) : str :=
  if ordered then lit "1. " else lit "* ".

(** The node classes the notebook translator handles by itself, other
    than the literal block, which it hands to the Markdown translator
    outside a rendered plot. *)
Definition notebook_names : list string :=
  ["doctest_block"; "only"; "nbplot_rendered"; "nbplot_not_rendered";
   "runrole_reference"; "mpl_hint"].

(** No node of the tree is of one of these classes. *)
Fixpoint markdown_only (n : node) : bool :=
  match n with
  | Text _ => true
  | Element tag _ _ children =>
      negb (existsb (fun x => String.eqb x tag) notebook_names)
      && forallb markdown_only children
  end.

(** The result of an inherited method, for the notebook translator
    [self]. *)
Definition lift (self : D2NB.Translator) (r : result D2M.Translator)
  : result D2NB.Translator :=
  match r with
  | Ok b => Ok (D2NB.set_d2m b self)
  | Raise e b => Raise e (D2NB.set_d2m b self)
  end.

(** A method that does not set the flag of the rendered-plot region. *)
Definition keeps_flag_down (m : D2NB.method) : Prop :=
  forall self parent node,
    D2NB._in_nbplot (after (m self parent node)) = true ->
    D2NB._in_nbplot self = true.





(** One example of a transcript: the blanks in front of its prompt, the
    rest of its first line, its continuation lines (the blanks in front of
    the marker, and what follows the marker), and the lines between its
    source and the next example: expected output, blank lines, prose. *)
Record example := Example {
  ex_indent : nat;
  ex_first : str;
  ex_more : list (nat * str);
  ex_others : list str
}.

Definition continuation (jr : nat * str) : str :=
  repeat SP (fst jr) ++ lit "..." ++ snd jr.

Definition source_lines (e : example) : list str :=
  (repeat SP (ex_indent e) ++ lit ">>>" ++ ex_first e)
    :: map continuation (ex_more e).













(** A Markdown cell that is not empty and neither starts nor ends with
    white space; a code cell is always in order. *)
Definition cell_in_order (c : D2NB.cell) : Prop :=
  match c with
  | D2NB.new_markdown_cell txt =>
      txt <> []
      /\ from_option isspace false (head txt) = false
      /\ from_option isspace false (last txt) = false
  | D2NB.new_code_cell _ => True
  end.

End More.

(** ** Facts about the string primitives *)
Section Strings.
Implicit Types (s l r : str) (c : char).

Lemma lstrip_spec s :
  exists l, s = l ++ lstrip s /\ forallb isspace l = true
    /\ (forall c, head (lstrip s) = Some c -> isspace c = false).
Proof.
  induction s as [|c s IH]; simpl.
  - exists []. split_and!; [done | done | intros; discriminate].
  - destruct (isspace c) eqn:E.
    + destruct IH as (l & Hs & Hl & Hh).
      exists (c :: l). simpl. rewrite E, Hl. split_and!; [congruence | done | done].
    + exists []. split_and!; [done | done |]. intros c' [= <-]. done.
Qed.

Lemma rstrip_spec s :
  exists r, s = rstrip s ++ r /\ forallb isspace r = true
    /\ (forall c, last (rstrip s) = Some c -> isspace c = false)
    /\ (rstrip s <> [] -> head (rstrip s) = head s).
Proof.
  induction s as [|c s IH]; simpl.
  - exists []. split_and!; [done | done | intros; discriminate | done].
  - destruct IH as (r & Hs & Hr & Hl & Hh).
    destruct (rstrip s) as [|d t] eqn:E.
    + destruct (isspace c) eqn:Ec.
      * exists (c :: r). simpl in *. rewrite Ec, Hr.
        split_and!; [congruence | done | discriminate | done].
      * exists r. simpl in *. split_and!; [congruence | done | | done].
        intros c' [= <-]. done.
    + exists r. split_and!; [simpl in *; congruence | done | | done].
      intros c'. rewrite last_cons. destruct (last (d :: t)) eqn:El.
      * intros [= <-]. by apply Hl.
      * by apply last_None in El.
Qed.

Lemma rstrip_nil_iff s : rstrip s = [] <-> forallb isspace s = true.
Proof.
  induction s as [|c s IH]; simpl; [done|].
  destruct (rstrip s) eqn:E, (isspace c) eqn:Ec; simpl.
  - split; [intros _; by apply IH | done].
  - split; discriminate.
  - split; [discriminate | intros H; apply IH in H; discriminate].
  - split; discriminate.
Qed.

Lemma lstrip_blank s : forallb isspace s = true -> lstrip s = [].
Proof.
  induction s as [|c s IH]; simpl; [done|].
  intros [-> H]%andb_true_iff. by apply IH.
Qed.

(** [s.strip() == ''] exactly when [s] holds white space only. *)
Lemma strip_nil_iff s : strip s = [] <-> forallb isspace s = true.
Proof.
  unfold strip. rewrite rstrip_nil_iff.
  destruct (lstrip_spec s) as (l & Hs & Hl & _).
  split; intros H.
  - rewrite Hs, forallb_app, Hl, H. done.
  - rewrite (lstrip_blank s H). done.
Qed.

(** [strip] takes white space, and nothing else, off both ends. *)
Lemma strip_spec s :
  exists l r, s = l ++ strip s ++ r
    /\ forallb isspace l = true /\ forallb isspace r = true
    /\ (forall c, head (strip s) = Some c -> isspace c = false)
    /\ (forall c, last (strip s) = Some c -> isspace c = false).
Proof.
  unfold strip.
  destruct (lstrip_spec s) as (l & Hs & Hl & Hh).
  destruct (rstrip_spec (lstrip s)) as (r & Hs' & Hr & Hlast & Hhead).
  exists l, r. split_and!; try done.
  - rewrite <- Hs'. done.
  - intros c Hc. apply Hh. rewrite <- Hhead; [done|].
    intros E. rewrite E in Hc. discriminate.
Qed.
End Strings.

(** ** The buffer engine: finalisation *)
Section Finalize.
Import Spec.

Lemma drop_eol_spec (L : list str) : drops_trailing_eol L (D2M.drop_eol L).
Proof.
  unfold drops_trailing_eol, D2M.drop_eol, str_eqb.
  destruct L as [|f P _] using rev_ind.
  - right. split; [|done]. intros P E. by destruct P.
  - rewrite last_snoc, removelast_last.
    case_bool_decide as E.
    + left. exists P. by subst.
    + right. split; [|done]. intros P' E'.
      apply app_inj_tail in E' as [_ ->]. done.
Qed.

(** C9: [astext] first drops, from each of the three lists, a single
    trailing fragment if and only if that fragment is a bare line break,
    and then returns the head, body and foot fragments concatenated in
    that order with nothing in between; nothing else of the translator
    changes. *)
Theorem astext_drops_eols_then_concatenates (self : D2M.Translator) :
  let self' := fst (D2M.astext self) in
  let text := snd (D2M.astext self) in
  drops_trailing_eol (D2M.head self) (D2M.head self')
  /\ drops_trailing_eol (D2M.body self) (D2M.body self')
  /\ drops_trailing_eol (D2M.foot self) (D2M.foot self')
  /\ text = concat (D2M.head self') ++ concat (D2M.body self')
            ++ concat (D2M.foot self')
  /\ self' = D2M.set_foot (D2M.foot self')
               (D2M.set_body (D2M.body self')
                  (D2M.set_head (D2M.head self') self)).
Proof.
  simpl. split_and!; try apply drop_eol_spec.
  - unfold join0. by rewrite !concat_app.
  - done.
Qed.
End Finalize.

(** ** The notebook assembler: flushing the accumulated text *)
Section Flush.

(** [strip], with its two ends as booleans. *)
Lemma strip_ends (s : str) :
  exists l r, s = l ++ strip s ++ r
    /\ forallb isspace l = true /\ forallb isspace r = true
    /\ from_option isspace false (head (strip s)) = false
    /\ from_option isspace false (last (strip s)) = false.
Proof.
  destruct (strip_spec s) as (l & r & Hs & Hl & Hr & Hh & Ht).
  exists l, r. split_and!; try done.
  - destruct (head (strip s)); [by apply Hh | done].
  - destruct (last (strip s)); [by apply Ht | done].
Qed.

Lemma strip_blank_eq (s : str) :
  forallb isspace s = str_eqb (strip s) [].
Proof.
  unfold str_eqb. case_bool_decide as E.
  - by apply strip_nil_iff.
  - apply not_true_is_false. by rewrite <- strip_nil_iff.
Qed.

(** C8: [flush_text] strips the white space around the accumulated text
    (the text is white space, the stripped text, white space, and the
    stripped text neither starts nor ends with white space), appends a
    Markdown cell holding the stripped text if and only if it is not
    empty, and in both cases leaves the buffer engine reset: the three
    lists, the two stacks, the section counter, the metadata and the
    region flag; so for an accumulation that is empty or white space
    only, no cell is added and the engine is reset all the same. *)
Theorem flush_text_strips_adds_and_resets (self : D2NB.Translator) :
  let text := snd (D2M.astext (D2NB.d2m self)) in
  let txt := strip text in
  let self' := D2NB.flush_text self in
  (exists l r, text = l ++ txt ++ r
     /\ forallb isspace l = true /\ forallb isspace r = true
     /\ from_option isspace false (head txt) = false
     /\ from_option isspace false (last txt) = false)
  /\ D2NB._notebook self'
     = (if str_eqb txt [] then D2NB._notebook self
        else D2NB._notebook self ++ [D2NB.new_markdown_cell txt])
  /\ D2NB._notebook self'
     = (if forallb isspace text then D2NB._notebook self
        else D2NB._notebook self ++ [D2NB.new_markdown_cell txt])
  /\ D2NB.d2m self'
     = D2M.mkTranslator [] [] [] (D2M._warned (D2NB.d2m self)) 0 [] []
         D2M.fresh_docinfo (D2M.warnings (D2NB.d2m self))
  /\ D2NB._in_nbplot self' = false.
Proof.
  intros text txt self'.
  assert (Hnb : D2NB._notebook self'
                = if str_eqb txt [] then D2NB._notebook self
                  else D2NB._notebook self ++ [D2NB.new_markdown_cell txt]).
  { subst self' txt text. unfold D2NB.flush_text.
    destruct (D2M.astext (D2NB.d2m self)) as [b t] eqn:E. simpl.
    by destruct (strip t). }
  split_and!.
  - apply strip_ends.
  - done.
  - by rewrite strip_blank_eq.
  - subst self'. unfold D2NB.flush_text.
    destruct (D2M.astext (D2NB.d2m self)) as [b t] eqn:E.
    unfold D2M.astext in E. injection E as <- <-.
    by destruct (strip _).
  - subst self'. unfold D2NB.flush_text.
    destruct (D2M.astext (D2NB.d2m self)) as [b t] eqn:E.
    by destruct (strip _).
Qed.
End Flush.

(** ** The traversal *)
Section WalkaboutFacts.
Context {T : Type}.
Variables dv dd : T -> option node -> node -> result T.

(** [SkipNode] from the visit: no children, no departure, no error. *)
Lemma walkabout_skip (v v' : T) (parent : option node) (n : node) :
  dv v parent n = Raise SkipNode v' -> walkabout dv dd v parent n = Ok v'.
Proof. intros H. destruct n; simpl; by rewrite H. Qed.
End WalkaboutFacts.

(** ** The buffer engine: writing to the current output *)
Section CurrentOutput.
Implicit Types (self : D2M.Translator) (s : str).

(** [add] appends one fragment to the current output. *)
Lemma get_current_output_add s self :
  D2M.get_current_output D2M.sec_body (D2M.add s self)
  = D2M.get_current_output D2M.sec_body self ++ [s].
Proof.
  unfold D2M.add, D2M.add_to, D2M.get_current_output.
  destruct (last (D2M.indent_levels self)) as [lv|] eqn:E; simpl.
  - by rewrite last_snoc.
  - by rewrite E.
Qed.

Lemma warned_add s self : D2M._warned (D2M.add s self) = D2M._warned self.
Proof.
  unfold D2M.add, D2M.add_to.
  by destruct (last (D2M.indent_levels self)).
Qed.

Lemma warnings_add s self : D2M.warnings (D2M.add s self) = D2M.warnings self.
Proof.
  unfold D2M.add, D2M.add_to.
  by destruct (last (D2M.indent_levels self)).
Qed.

Lemma dispatch_visit_comment self parent node :
  class_name node = "comment" ->
  dispatch_visit D2M.Translator_class self parent node
  = D2M.visit_comment self parent node.
Proof. unfold dispatch_visit. by intros ->. Qed.

Lemma dispatch_visit_title self parent node :
  class_name node = "title" ->
  dispatch_visit D2M.Translator_class self parent node
  = D2M.visit_title self parent node.
Proof. unfold dispatch_visit. by intros ->. Qed.
End CurrentOutput.

(** ** Comments *)
Section Comments.

(** C10: walking a comment node with the Markdown translator appends
    ["<!-- " + text + " -->"] and a line break, as one fragment, to the
    current output, and ends the node there: the subtree is skipped, the
    walk goes on, and no warning is recorded. *)
Theorem comment_rendered_as_html_comment
  (self : D2M.Translator) (parent : option node) (node : node) :
  class_name node = "comment" ->
  let html := lit "<!-- " ++ node_astext node ++ lit " -->" ++ eol in
  dispatch_visit D2M.Translator_class self parent node
    = Raise SkipNode (D2M.add html self)
  /\ walkabout (dispatch_visit D2M.Translator_class)
       (dispatch_departure D2M.Translator_class) self parent node
     = Ok (D2M.add html self)
  /\ D2M.get_current_output D2M.sec_body (D2M.add html self)
     = D2M.get_current_output D2M.sec_body self ++ [html]
  /\ D2M.warnings (D2M.add html self) = D2M.warnings self
  /\ D2M._warned (D2M.add html self) = D2M._warned self.
Proof.
  intros Hc html.
  assert (Hv : dispatch_visit D2M.Translator_class self parent node
               = Raise SkipNode (D2M.add html self)).
  { by rewrite dispatch_visit_comment. }
  split_and!.
  - done.
  - by apply walkabout_skip.
  - apply get_current_output_add.
  - apply warnings_add.
  - apply warned_add.
Qed.

Lemma comment_rendered_witness :
  class_name (Examples.comment "hi") = "comment"
  /\ walkabout (dispatch_visit D2M.Translator_class)
       (dispatch_departure D2M.Translator_class)
       (D2M.init []) None (Examples.comment "hi")
     = Ok (D2M.add (lit "<!-- hi -->" ++ eol) (D2M.init [])).
Proof.
  split; [reflexivity|].
  exact (proj1 (proj2 (comment_rendered_as_html_comment
                         (D2M.init []) None (Examples.comment "hi")
                         eq_refl))).
Defined.
End Comments.

(** ** Section headings *)
Section Headings.
Import Spec.

Lemma length_repeat_str (n : nat) (s : str) :
  length (repeat_str n s) = (n * length s)%nat.
Proof. induction n; simpl; [done|]. rewrite length_app. lia. Qed.

(** A marker of weight [w] is [w] number signs and a blank. *)
Lemma heading_marker_repeat (w : Z) :
  heading_marker w = repeat 35%N (Z.to_nat w) ++ [SP].
Proof.
  unfold heading_marker, str_mul. f_equal.
  induction (Z.to_nat w); simpl; [done|]. by f_equal.
Qed.

Lemma heading_marker_length (w : Z) :
  length (heading_marker w) = S (Z.to_nat w).
Proof. rewrite heading_marker_repeat, length_app, repeat_length. simpl. lia. Qed.

(** C2, as the code has it: at section depth [d >= 1] the heading
    construct writes to the current output, as one fragment, a marker of
    weight exactly [d + 1] ([d + 1] number signs) followed by a blank; no
    maximum heading weight is applied. *)
Theorem title_marker_weight_is_depth_plus_one
  (self : D2M.Translator) (parent : option node) (node : node) :
  1 <= D2M.section_level self ->
  class_name node = "title" ->
  let d := D2M.section_level self in
  let marker := repeat 35%N (Z.to_nat (d + 1)) ++ [SP] in
  dispatch_visit D2M.Translator_class self parent node
    = Ok (D2M.add marker self)
  /\ D2M.get_current_output D2M.sec_body (D2M.add marker self)
     = D2M.get_current_output D2M.sec_body self ++ [marker]
  /\ D2M.section_level (D2M.add marker self) = d.
Proof.
  intros Hd Hc d marker. split_and!.
  - rewrite dispatch_visit_title by done. unfold D2M.visit_title.
    destruct (Z.eqb_spec (D2M.section_level self) 0) as [E|_]; [lia|].
    fold d. fold (heading_marker (d + 1)).
    by rewrite heading_marker_repeat.
  - apply get_current_output_add.
  - unfold D2M.add, D2M.add_to.
    by destruct (last (D2M.indent_levels self)).
Qed.

Lemma title_marker_witness :
  1 <= D2M.section_level (D2M.set_section_level 2 (D2M.init []))
  /\ dispatch_visit D2M.Translator_class
       (D2M.set_section_level 2 (D2M.init [])) None (Examples.title "T")
     = Ok (D2M.add (lit "### ") (D2M.set_section_level 2 (D2M.init []))).
Proof.
  split; [simpl; lia|].
  exact (proj1 (title_marker_weight_is_depth_plus_one
                  (D2M.set_section_level 2 (D2M.init [])) None
                  (Examples.title "T") ltac:(simpl; lia) eq_refl)).
Defined.

(** C2 as stated fails: no maximum weight [m] makes the marker at every
    depth [d >= 1] the one of weight [min (d + 1) m]; and at depth 6 the
    marker has seven number signs, one more than Markdown's heaviest
    heading. *)
Lemma title_marker_not_capped :
  (~ exists max_heading_weight : Z,
       forall d, 1 <= d ->
         dispatch_visit D2M.Translator_class
           (D2M.set_section_level d (D2M.init [])) None (Examples.title "T")
         = Ok (D2M.add (heading_marker (Z.min (d + 1) max_heading_weight))
                 (D2M.set_section_level d (D2M.init []))))
  /\ dispatch_visit D2M.Translator_class
       (D2M.set_section_level 6 (D2M.init [])) None (Examples.title "T")
     = Ok (D2M.add (lit "####### ") (D2M.set_section_level 6 (D2M.init []))).
Proof.
  split; [|reflexivity].
  intros [m H].
  specialize (H (Z.max 1 m) ltac:(lia)).
  rewrite dispatch_visit_title in H by done.
  unfold D2M.visit_title in H.
  destruct (Z.eqb_spec (D2M.section_level
              (D2M.set_section_level (Z.max 1 m) (D2M.init []))) 0) as [E|_].
  { simpl in E. lia. }
  injection H as H.
  fold (heading_marker (Z.max 1 m + 1)) in H.
  apply (f_equal length) in H.
  rewrite !heading_marker_length in H. simpl in H. lia.
Qed.
End Headings.

(** ** Lines *)
Section Lines.
Implicit Types (s cur : str).

Lemma splitlines_from_cons keepends cur c s :
  splitlines_from keepends cur (c :: s)
  = if is_linebreak c then
      match s with
      | c' :: s'' =>
          if ((c =? CR) && (c' =? LF))%N then
            rev (if keepends then c' :: c :: cur else cur)
              :: splitlines_from keepends [] s''
          else
            rev (if keepends then c :: cur else cur)
              :: splitlines_from keepends [] s
      | [] => [rev (if keepends then c :: cur else cur)]
      end
    else splitlines_from keepends (c :: cur) s.
Proof. by destruct s. Qed.

(** With [keepends], the lines put together again are the text. *)
Lemma splitlines_from_concat cur s :
  concat (splitlines_from true cur s) = rev cur ++ s.
Proof.
  revert cur. induction s as [s IH] using (induction_ltof1 _ (@length char)).
  unfold ltof in IH. intros cur. destruct s as [|c s'].
  - simpl. destruct cur; simpl; [done|]. by rewrite !app_nil_r.
  - rewrite splitlines_from_cons. destruct (is_linebreak c).
    + destruct s' as [|c' s''].
      * simpl. by rewrite app_nil_r.
      * destruct ((c =? CR)%N && (c' =? LF)%N); cbn [concat];
          rewrite IH by (simpl; lia); simpl; by rewrite <- !app_assoc.
    + rewrite IH by (simpl; lia). simpl. by rewrite <- app_assoc.
Qed.

Lemma splitlines_concat s : concat (splitlines true s) = s.
Proof. apply splitlines_from_concat. Qed.

(** There is a line as soon as there is a character. *)
Lemma splitlines_from_nil keepends cur s :
  splitlines_from keepends cur s = [] <-> cur = [] /\ s = [].
Proof.
  revert cur. induction s as [|c s' IH]; intros cur; simpl.
  - destruct cur; split; try done. by intros [? _].
  - destruct (is_linebreak c).
    + destruct s' as [|c' s'']; [|destruct (_ && _)];
        split; try done; by intros [_ ?].
    + rewrite IH. split; [by intros [? _] | by intros [_ ?]].
Qed.

Lemma splitlines_nil keepends s : splitlines keepends s = [] <-> s = [].
Proof.
  unfold splitlines. rewrite splitlines_from_nil. split; [by intros [_ ?] | done].
Qed.
End Lines.

(** ** The buffer engine: popping an indentation context *)
Section Materialize.
Import Spec.
Implicit Types (self : D2M.Translator) (level : D2M.IndentLevel).

(** The loop of [IndentLevel.write] builds the list of the lines, each
    with what the loop body puts in front of it. *)
Lemma write_loop {A B} (c : B -> bool) (a : A) (g : B -> A)
  (others : list B) (init : list A) :
  fold_left (fun texts line =>
               if c line then texts ++ [a] else texts ++ [g line])
    others init
  = init ++ map (fun line => if c line then a else g line) others.
Proof.
  revert init. induction others as [|l ls IH]; intros init; simpl.
  - by rewrite app_nil_r.
  - rewrite IH. destruct (c l); by rewrite <- app_assoc.
Qed.

(** [IndentLevel.write] appends the materialised text, if there is one,
    to the level's base. *)
Lemma IndentLevel_write_materialize level self :
  D2M.IndentLevel_write level self
  = match materialize (D2M.prefix level) (D2M.first_prefix level)
            (D2M.content level) with
    | None => self
    | Some text => D2M.base_append (D2M.base level) text self
    end.
Proof.
  unfold D2M.IndentLevel_write, materialize, join0.
  destruct (splitlines true (concat (D2M.content level)))
    as [|line0 others]; [done|].
  f_equal. rewrite write_loop. simpl. rewrite <- app_assoc. do 2 f_equal.
  apply (f_equal (@concat char)).
  apply map_ext. intros line. unfold blank.
  by rewrite strip_blank_eq.
Qed.

(** For a linked stack, the base of the innermost level is the current
    output of the translator once the level is taken off. *)
Lemma base_append_current_output levels level text self :
  levels_linked (levels ++ [level]) ->
  D2M.indent_levels self = levels ->
  exists sec,
    D2M.get_current_output sec (D2M.base_append (D2M.base level) text self)
    = D2M.get_current_output sec self ++ [text].
Proof.
  intros Hl Hs.
  specialize (Hl (length levels) level (list_lookup_middle _ _ _ _ eq_refl)).
  destruct levels as [|l0 ls _] using rev_ind.
  - simpl in Hl. destruct Hl as [sec Hb]. exists sec. rewrite Hb.
    unfold D2M.base_append, D2M.get_current_output.
    destruct sec; simpl; by rewrite Hs.
  - rewrite length_app, Nat.add_comm in Hl. simpl in Hl.
    exists D2M.sec_body. rewrite Hl.
    unfold D2M.base_append, D2M.get_current_output. simpl. rewrite Hs.
    replace (length ls) with (length ls + 0)%nat by lia.
    rewrite alter_app_r. simpl. by rewrite !last_snoc.
Qed.

(** The stack of a running translator is linked: it starts empty, and
    [start_level], [add] and [finish_level] keep it linked. *)
Lemma levels_linked_bases (l l' : list D2M.IndentLevel) :
  D2M.base <$> l = D2M.base <$> l' -> levels_linked l -> levels_linked l'.
Proof.
  intros E H j level Hj.
  assert (Hb : (D2M.base <$> l) !! j = Some (D2M.base level)).
  { by rewrite E, list_lookup_fmap, Hj. }
  rewrite list_lookup_fmap in Hb.
  destruct (l !! j) as [level0|] eqn:E0; [|done].
  injection Hb as Hb. specialize (H j level0 E0). by rewrite Hb in H.
Qed.

Lemma levels_linked_init log : levels_linked (D2M.indent_levels (D2M.init log)).
Proof. intros j level Hj. done. Qed.

Lemma levels_linked_start_level prefix first_prefix sec self :
  levels_linked (D2M.indent_levels self) ->
  levels_linked
    (D2M.indent_levels (D2M.start_level prefix first_prefix sec self)).
Proof.
  intros H j level. simpl. intros Hj.
  apply lookup_app_Some in Hj as [Hj | [Hlen Hj]]; [by apply H|].
  apply list_lookup_singleton_Some in Hj as [Hj <-].
  assert (j = length (D2M.indent_levels self)) as -> by lia.
  destruct (D2M.indent_levels self); simpl; [by eexists|].
  f_equal. lia.
Qed.

Lemma levels_linked_removelast (l : list D2M.IndentLevel) :
  levels_linked l -> levels_linked (removelast l).
Proof.
  destruct l as [|x l _] using rev_ind; [done|].
  rewrite removelast_last. intros H j level Hj.
  apply (H j level). by apply lookup_app_l_Some.
Qed.

Lemma levels_linked_add s self :
  levels_linked (D2M.indent_levels self) ->
  levels_linked (D2M.indent_levels (D2M.add s self)).
Proof.
  unfold D2M.add, D2M.add_to.
  destruct (last (D2M.indent_levels self)) as [lv|] eqn:E; simpl.
  - apply levels_linked_bases.
    apply last_Some in E as [l' ->].
    by rewrite removelast_last, !fmap_app.
  - done.
Qed.

Lemma levels_linked_finish_level self self' :
  levels_linked (D2M.indent_levels self) ->
  D2M.finish_level self = Ok self' ->
  levels_linked (D2M.indent_levels self').
Proof.
  unfold D2M.finish_level.
  destruct (last (D2M.indent_levels self)) as [level|]; [|done].
  intros H [= <-]. apply levels_linked_removelast in H.
  rewrite IndentLevel_write_materialize.
  destruct (materialize _ _ _) as [text|]; [|done].
  destruct (D2M.base level) as [sec|i]; simpl.
  - by destruct sec.
  - revert H. apply levels_linked_bases.
    apply list_eq. intros j. rewrite !list_lookup_fmap.
    destruct (decide (j = i)) as [->|Hne].
    + rewrite list_lookup_alter_eq. by destruct (_ !! i).
    + by rewrite list_lookup_alter_ne.
Qed.

(** C1: popping an indentation context materialises it: its fragments
    are concatenated and split into lines that keep their terminators
    (the lines put together are the text again); with no lines nothing is
    appended; otherwise the first line gets [first_prefix], every later
    line gets [prefix] unless it holds white space only, in which case it
    becomes a bare line break, and the result is appended as one fragment
    to the context's base, which for a linked stack is the current output
    of the translator without the context. *)
Theorem finish_level_materializes self level :
  last (D2M.indent_levels self) = Some level ->
  let popped :=
    D2M.set_indent_levels (removelast (D2M.indent_levels self)) self in
  let string := concat (D2M.content level) in
  let text :=
    materialize (D2M.prefix level) (D2M.first_prefix level)
      (D2M.content level) in
  concat (splitlines true string) = string
  /\ (text = None <-> string = [])
  /\ D2M.finish_level self
     = Ok (match text with
           | None => popped
           | Some t => D2M.base_append (D2M.base level) t popped
           end)
  /\ (levels_linked (D2M.indent_levels self) ->
      forall t, text = Some t ->
      exists sec,
        D2M.get_current_output sec
          (D2M.base_append (D2M.base level) t popped)
        = D2M.get_current_output sec popped ++ [t]).
Proof.
  intros Hlast popped string text. split_and!.
  - apply splitlines_concat.
  - subst text. unfold materialize. fold string.
    rewrite <- (splitlines_nil true string).
    by destruct (splitlines true string).
  - unfold D2M.finish_level. rewrite Hlast.
    by rewrite IndentLevel_write_materialize.
  - intros Hl t _.
    apply last_Some in Hlast as [levels Hlevels].
    rewrite Hlevels in Hl.
    apply (base_append_current_output levels); [done|].
    subst popped. simpl. by rewrite Hlevels, removelast_last.
Qed.

Lemma finish_level_witness :
  last (D2M.indent_levels Examples.in_item) = Some Examples.item_level
  /\ D2M.finish_level Examples.in_item
     = Ok (D2M.add (lit "* x" ++ eol ++ eol ++ lit "  y") (D2M.init [])).
Proof.
  split; [reflexivity|].
  exact (proj1 (proj2 (proj2 (finish_level_materializes
                                Examples.in_item Examples.item_level
                                eq_refl)))).
Defined.
End Materialize.

(** ** Rendering a bullet list *)
Section BulletList.

(** C4, as the code has it: the list of the three items [a], [b], [c]
    renders as the three lines [* a], [* b], [* c], each followed by one
    blank line, which the paragraph in every item leaves behind. *)
Theorem bullet_list_rendering :
  D2M.translate Examples.abc_list
  = inr (lit "* a" ++ eol ++ eol ++ lit "* b" ++ eol ++ eol
         ++ lit "* c" ++ eol ++ eol).
Proof. vm_compute. reflexivity. Qed.

(** C4 as stated fails: the rendering of the list is not the three lines
    [* a], [* b], [* c]; there is a blank line after every item.  With the
    text directly in the items, without paragraphs, there is no line break
    at all. *)
Lemma bullet_list_not_three_lines :
  (~ exists out, D2M.translate Examples.abc_list = inr out
       /\ splitlines false out = [lit "* a"; lit "* b"; lit "* c"])
  /\ (exists out, D2M.translate Examples.abc_list = inr out
       /\ splitlines false out
          = [lit "* a"; []; lit "* b"; []; lit "* c"; []])
  /\ D2M.translate Examples.abc_list_bare = inr (lit "* a* b* c").
Proof.
  split_and!.
  - intros (out & Hout & Hlines). vm_compute in Hout.
    injection Hout as <-. vm_compute in Hlines. discriminate.
  - eexists. split; vm_compute; reflexivity.
  - vm_compute. reflexivity.
Qed.
End BulletList.

(** ** Literal blocks in a plotted-output region *)
Section PlottedOutput.

(** [add_code_block] ends in [reset], which clears the region flag. *)
Lemma add_code_block_clears_flag (txt : str) (self : D2NB.Translator) :
  D2NB._in_nbplot (D2NB.add_code_block txt self) = false.
Proof.
  unfold D2NB.add_code_block, D2NB.flush_text.
  destruct (D2M.astext (D2NB.d2m self)) as [b t]. by destruct (strip t).
Qed.

(** C7 fails on the code: a literal block met with the region flag set
    becomes a code cell, but that very step clears the flag, so the next
    literal block of the same region is written as a fenced block.  For a
    region with the literal blocks [a] and [b] the notebook is the code
    cell [a] and a Markdown cell with [b] between fences. *)
Theorem second_literal_block_in_region_is_fenced :
  (forall txt self,
     D2NB._in_nbplot (D2NB.add_code_block txt self) = false)
  /\ D2NB.translate Examples.two_blocks_in_region
     = inr [D2NB.new_code_cell (lit "a");
            D2NB.new_markdown_cell
              (lit "```" ++ eol ++ lit "b" ++ eol ++ lit "```")].
Proof.
  split.
  - apply add_code_block_clears_flag.
  - vm_compute. reflexivity.
Qed.
End PlottedOutput.

(** ** Invariants of a walk *)
Section WalkaboutInvariant.
Context {T : Type}.
Variables dv dd : T -> option node -> node -> result T.
Variable I : T -> Prop.
Hypothesis visit_keeps : forall v parent n, I v -> I (after (dv v parent n)).
Hypothesis depart_keeps : forall v parent n, I v -> I (after (dd v parent n)).

(** Induction on a node, with the property at hand for its children. *)
Lemma node_children_ind (P : node -> Prop) :
  (forall data, P (Text data)) ->
  (forall tag sep a children,
     Forall P children -> P (Element tag sep a children)) ->
  forall n, P n.
Proof.
  intros HT HE. fix IH 1. intros [data|tag sep a children]; [apply HT|].
  apply HE. induction children as [|c cs IHcs].
  - apply Forall_nil_2.
  - apply Forall_cons_2; [apply IH | apply IHcs].
Qed.

(** The loop over the children keeps what the walk of each child
    keeps. *)
Lemma walk_children_invariant (p : option node) (children : list node) :
  Forall (fun c => forall v parent, I v -> I (after (walkabout dv dd v parent c)))
    children ->
  forall v0, I v0 ->
    I (after
         ((fix walk (v : T) (cs : list node) {struct cs} : result T :=
             match cs with
             | [] => Ok v
             | c :: cs' =>
                 match walkabout dv dd v p c with
                 | Ok v' => walk v' cs'
                 | Raise e v' => Raise e v'
                 end
             end) v0 children)).
Proof.
  induction 1 as [|c cs Hc _ IHcs]; intros v0 Hv0; [done|].
  specialize (Hc v0 p Hv0).
  destruct (walkabout dv dd v0 p c) as [v'|e v']; simpl in Hc.
  - by apply IHcs.
  - done.
Qed.

(** What every visit and every departure keeps, the walk keeps, however
    it ends. *)
Lemma walkabout_invariant (n : node) :
  forall v parent, I v -> I (after (walkabout dv dd v parent n)).
Proof.
  induction n as [data|tag sep a children IH] using node_children_ind;
    intros v parent Hv.
  - simpl. pose proof (visit_keeps v parent (Text data) Hv) as H1.
    destruct (dv v parent (Text data)) as [v1|e v1]; simpl in H1.
    + by apply depart_keeps.
    + by destruct e.
  - simpl. set (n := Element tag sep a children).
    pose proof (visit_keeps v parent n Hv) as H1.
    destruct (dv v parent n) as [v1|e v1]; simpl in H1; [|by destruct e].
    pose proof (walk_children_invariant (Some n) children IH v1 H1) as H2.
    simpl in H2.
    match goal with
    | |- context [?f v1 children] => set (walk := f) in *
    end.
    destruct (walk v1 children) as [v2|e v2]; simpl in H2.
    + by apply depart_keeps.
    + done.
Qed.
End WalkaboutInvariant.

(** ** Unsupported node classes *)
Section Unknown.
Import Spec.

(** Unfolds a method down to the record and decides its cases. *)
Ltac log_cases :=
  intros self parent node; unfold same_log, after;
  repeat (first
    [ progress unfold D2M.pass, D2M.visit_Text, D2M.visit_comment,
        D2M.visit_docinfo_item, D2M.depart_paragraph, D2M.visit_math_block,
        D2M.depart_math_block, D2M.visit_literal_block,
        D2M.depart_literal_block, D2M.visit_block_quote,
        D2M.depart_block_quote, D2M.visit_section, D2M.depart_section,
        D2M.visit_enumerated_list, D2M.depart_enumerated_list,
        D2M.visit_bullet_list, D2M.depart_bullet_list, D2M.visit_list_item,
        D2M.depart_list_item, D2M.visit_subtitle, D2M.visit_system_message,
        D2M.visit_title, D2M.depart_title, D2M.visit_transition,
        D2M.visit_reference, D2M._make_method, D2M.unknown_departure,
        D2M.finish_level, D2M.IndentLevel_write, D2M.base_append,
        D2M.start_level, D2M.ensure_eol, D2M.add, D2M.add_to,
        D2M.add_section, D2M.set_lists
    | case_match ]);
  simplify_eq/=; split; reflexivity.

(** Attribute lookup: what holds for every entry and for the default
    holds for the method found. *)
Lemma getattr_Forall {T} (P : visitor_method T -> Prop)
  (tbl : list (string * visitor_method T)) name default :
  Forall (fun nm => P (snd nm)) tbl -> P default ->
  P (getattr tbl name default).
Proof.
  intros Htbl Hd. induction Htbl as [|[n m] tbl Hm _ IH]; simpl; [done|].
  by destruct (String.eqb n name).
Qed.

Lemma getattr_missing {T} (tbl : list (string * visitor_method T))
  name default :
  hasattr tbl name = false -> getattr tbl name default = default.
Proof.
  unfold hasattr. induction tbl as [|[n m] tbl IH]; simpl; [done|].
  destruct (String.eqb n name); [done|]. apply IH.
Qed.

Lemma visits_keep_log :
  Forall (fun nm => keeps_log (snd nm)) (visits D2M.Translator_class).
Proof.
  unfold D2M.Translator_class, D2M.decorated. simpl.
  repeat (apply Forall_cons_2; [simpl; log_cases|]). apply Forall_nil_2.
Qed.

Lemma departs_keep_log :
  Forall (fun nm => keeps_log (snd nm)) (departs D2M.Translator_class).
Proof.
  unfold D2M.Translator_class, D2M.decorated. simpl.
  repeat (apply Forall_cons_2; [simpl; log_cases|]). apply Forall_nil_2.
Qed.

Lemma keeps_log_preserves (I : D2M.Translator -> Prop) (m : D2M.method) :
  (forall a b, same_log a b -> I b -> I a) ->
  keeps_log m -> preserves I m.
Proof. intros HI Hm self parent node. apply HI, Hm. Qed.

(** Literals and warning messages tell node classes apart. *)
Lemma lit_inj (x y : string) : lit x = lit y -> x = y.
Proof.
  unfold lit. intros H.
  rewrite <- (String.string_of_list_ascii_of_string x),
          <- (String.string_of_list_ascii_of_string y).
  f_equal. revert H.
  generalize (String.list_ascii_of_string x) (String.list_ascii_of_string y).
  induction l as [|a l IH]; intros [|b l'] H; try done.
  injection H as Hab Hl. f_equal; [|by apply IH].
  unfold chr in Hab.
  by rewrite <- (Ascii.ascii_N_embedding a), <- (Ascii.ascii_N_embedding b), Hab.
Qed.

Lemma unsupported_inj (k1 k2 : string) :
  unsupported k1 = unsupported k2 -> k1 = k2.
Proof.
  unfold unsupported. intros H.
  apply app_inv_head, app_inv_tail in H. by apply lit_inj.
Qed.

Lemma warnings_for_snoc kind k (self : D2M.Translator) :
  warnings_for kind
    (D2M.set_warnings (D2M.warnings self ++ [unsupported k]) self)
  = (warnings_for kind self + if bool_decide (kind = k) then 1 else 0)%nat.
Proof.
  unfold warnings_for. simpl. rewrite filter_app, length_app. f_equal.
  case_bool_decide as E.
  - subst. by rewrite filter_cons_True.
  - rewrite filter_cons_False; [done|].
    intros E'. by apply unsupported_inj in E'.
Qed.

(** [unknown_visit] raises [SkipNode], touches nothing but the warning
    record, and keeps it at one warning per warned class. *)
Lemma unknown_visit_spec (self : D2M.Translator) parent node :
  warned_once self ->
  exists self',
    D2M.unknown_visit self parent node = Raise SkipNode self'
    /\ warned_once self'
    /\ class_name node ∈ D2M._warned self'
    /\ D2M._warned self ⊆ D2M._warned self'
    /\ self' = D2M.set_warned (D2M._warned self')
                (D2M.set_warnings (D2M.warnings self') self).
Proof.
  intros Hw. unfold D2M.unknown_visit.
  case_bool_decide as E.
  - exists self. split_and!; try done. by destruct self.
  - eexists. split_and!; [done| |simpl; set_solver|simpl; set_solver|done].
    intros kind. unfold warned_once in Hw.
    change (warnings_for kind
              (D2M.set_warnings
                 (D2M.warnings self ++ [unsupported (class_name node)]) self)
            = if bool_decide (kind ∈ {[class_name node]} ∪ D2M._warned self)
              then 1%nat else 0%nat).
    rewrite warnings_for_snoc, Hw.
    destruct (decide (kind = class_name node)) as [->|Hne].
    + rewrite bool_decide_eq_false_2 by done.
      rewrite !bool_decide_eq_true_2 by set_solver. done.
    + rewrite (bool_decide_eq_false_2 (kind = _)) by done.
      rewrite Nat.add_0_r.
      assert (Hiff : kind ∈ {[class_name node]} ∪ D2M._warned self
                     <-> kind ∈ D2M._warned self).
      { rewrite elem_of_union, elem_of_singleton. tauto. }
      by rewrite (bool_decide_ext _ _ Hiff).
Qed.
(** The class's fallbacks are the methods of the source. *)
Lemma unknown_visit_of_class :
  unknown_visit_of D2M.Translator_class = D2M.unknown_visit.
Proof. reflexivity. Qed.

Lemma dispatch_visit_unrecognized (self : D2M.Translator) parent node :
  unrecognized (class_name node) ->
  dispatch_visit D2M.Translator_class self parent node
  = D2M.unknown_visit self parent node.
Proof.
  intros H. unfold dispatch_visit. by rewrite (getattr_missing _ _ _ H).
Qed.

(** One warning for every warned class, and [kind] among them: every
    visit and every departure keeps that. *)
Lemma warned_once_same_log (kind : string) (a b : D2M.Translator) :
  same_log a b ->
  warned_once b /\ kind ∈ D2M._warned b ->
  warned_once a /\ kind ∈ D2M._warned a.
Proof.
  intros [Hw Hl] [Hb Hk]. split; [|by rewrite Hw].
  intros k. unfold warnings_for. rewrite Hl, Hw. apply Hb.
Qed.

Lemma dispatch_visit_keeps_warned_once (kind : string) :
  preserves (fun v => warned_once v /\ kind ∈ D2M._warned v)
    (dispatch_visit D2M.Translator_class).
Proof.
  intros self parent node. unfold dispatch_visit.
  apply (getattr_Forall
           (preserves (fun v => warned_once v /\ kind ∈ D2M._warned v))
           (visits D2M.Translator_class) (class_name node)).
  - eapply Forall_impl; [apply visits_keep_log|].
    intros nm. apply keeps_log_preserves, warned_once_same_log.
  - rewrite unknown_visit_of_class. clear. intros self parent node [Hw Hk].
    destruct (unknown_visit_spec self parent node Hw)
      as (self' & -> & Hw' & _ & Hsub & _).
    simpl. split; [done|]. by apply Hsub.
Qed.

Lemma dispatch_departure_keeps_warned_once (kind : string) :
  preserves (fun v => warned_once v /\ kind ∈ D2M._warned v)
    (dispatch_departure D2M.Translator_class).
Proof.
  intros self parent node. unfold dispatch_departure.
  apply (getattr_Forall
           (preserves (fun v => warned_once v /\ kind ∈ D2M._warned v))
           (departs D2M.Translator_class) (class_name node)).
  - eapply Forall_impl; [apply departs_keep_log|].
    intros nm. apply keeps_log_preserves, warned_once_same_log.
  - apply keeps_log_preserves; [apply warned_once_same_log|].
    change (keeps_log D2M.unknown_departure). clear. log_cases.
Qed.

Lemma warned_once_init : warned_once (D2M.init []).
Proof. intros kind. reflexivity. Qed.

(** C6: a node of a class the translator has no method for makes the
    visit raise [SkipNode]: the walk of the node ends there without an
    error, with its children unvisited and nothing written; only the
    warning record changes.  After it the translator holds exactly one
    warning for that class, and it still holds exactly one after whatever
    it walks next, the same class included.  So the document in which the
    unsupported class [figure] occurs twice is rendered, and the walk
    leaves one warning. *)
Theorem unknown_kind_warned_once_and_skipped
  (self : D2M.Translator) (parent : option node) (node : node) :
  unrecognized (class_name node) ->
  warned_once self ->
  let dv := dispatch_visit D2M.Translator_class in
  let dd := dispatch_departure D2M.Translator_class in
  let self' := after (dv self parent node) in
  dv self parent node = Raise SkipNode self'
  /\ walkabout dv dd self parent node = Ok self'
  /\ self' = D2M.set_warned (D2M._warned self')
              (D2M.set_warnings (D2M.warnings self') self)
  /\ warnings_for (class_name node) self' = 1%nat
  /\ (forall parent2 node2,
        warnings_for (class_name node)
          (after (walkabout dv dd self' parent2 node2)) = 1%nat)
  /\ D2M.translate Examples.two_figures = inr (lit "p" ++ eol)
  /\ D2M.warnings
       (after (walk_document D2M.Translator_class (D2M.init [])
                 Examples.two_figures))
     = [unsupported "figure"].
Proof.
  intros Hu Hw dv dd self'.
  destruct (unknown_visit_spec self parent node Hw)
    as (s1 & Hv & Hw1 & Hk & _ & Hs1).
  assert (Hdv : dv self parent node = Raise SkipNode s1).
  { subst dv. by rewrite dispatch_visit_unrecognized. }
  assert (self' = s1) as -> by (subst self'; by rewrite Hdv).
  assert (Hone : forall v, warned_once v /\ class_name node ∈ D2M._warned v ->
                           warnings_for (class_name node) v = 1%nat).
  { intros v [Hwv Hkv]. rewrite Hwv. by rewrite bool_decide_eq_true_2. }
  split_and!; try done.
  - by apply walkabout_skip.
  - by apply Hone.
  - intros parent2 node2. apply Hone.
    apply (walkabout_invariant dv dd
             (fun v => warned_once v /\ class_name node ∈ D2M._warned v)).
    + intros v p n. apply dispatch_visit_keeps_warned_once.
    + intros v p n. apply dispatch_departure_keeps_warned_once.
    + done.
Qed.

Lemma unknown_kind_witness :
  unrecognized (class_name (Examples.figure []))
  /\ warned_once (D2M.init [])
  /\ walkabout (dispatch_visit D2M.Translator_class)
       (dispatch_departure D2M.Translator_class)
       (D2M.init []) None (Examples.figure [])
     = Ok (after (dispatch_visit D2M.Translator_class
                    (D2M.init []) None (Examples.figure []))).
Proof.
  split; [reflexivity|]. split; [exact warned_once_init|].
  exact (proj1 (proj2 (unknown_kind_warned_once_and_skipped
                         (D2M.init []) None (Examples.figure [])
                         eq_refl warned_once_init))).
Defined.
End Unknown.

(** ** The matcher *)
Section Matcher.
Import Re.

(** A successful match of [r] followed by [k] is a match of [r] to some
    position from which [k] succeeded. *)
Lemma rmatch_sound (r : regex) :
  forall st k m,
    rmatch r st k = Some m ->
    exists st', matches r st st' /\ k st' = Some m.
Proof.
  induction r as [|c| | | |a IHa b IHb|a IHa|a IHa|a IHa|name a IHa];
    intros st k m H; simpl in H.
  - exists st. split; [constructor | done].
  - destruct (rest st) as [|d s'] eqn:E; [done|].
    destruct (N.eqb_spec c d) as [->|]; [|done].
    eexists. split; [by apply matches_Lit | done].
  - destruct (rest st) as [|d s'] eqn:E; [done|].
    destruct (N.eqb_spec d LF) as [|Hne]; [done|].
    eexists. split; [by apply matches_Dot | done].
  - destruct (at_bol st) eqn:E; [|done].
    exists st. split; [by constructor | done].
  - destruct (at_eol st) eqn:E; [|done].
    exists st. split; [by constructor | done].
  - apply IHa in H as (st2 & Ha & H). apply IHb in H as (st3 & Hb & H).
    exists st3. split; [by econstructor | done].
  - revert H. generalize (length (rest st)). intros n. revert st.
    induction n as [|n IHn]; intros st H.
    + exists st. split; [constructor | done].
    + simpl in H.
      match type of H with
      | match ?x with _ => _ end = _ => destruct x as [m0|] eqn:E
      end.
      * injection H as <-.
        apply IHa in E as (st2 & Ha & E).
        destruct (length (rest st2) <? length (rest st))%nat; [|done].
        apply IHn in E as (st3 & Hs & E).
        exists st3. split; [by econstructor | done].
      * exists st. split; [constructor | done].
  - destruct (rmatch a st k) as [m0|] eqn:E.
    + injection H as <-. apply IHa in E as (st' & Ha & E).
      exists st'. split; [by constructor | done].
    + exists st. split; [constructor | done].
  - destruct (rmatch a st Some) eqn:E; [done|].
    exists st. split; [by constructor | done].
  - apply IHa in H as (st' & Ha & H).
    eexists. split; [by constructor | done].
Qed.
(** A match moves forward in the subject. *)
Lemma matches_rest r st st' :
  matches r st st' -> exists pre, rest st = pre ++ rest st'.
Proof.
  induction 1 as [st|c s' st E|d s' st E _|st _|st _
                  |a b st1 st2 st3 _ [p1 E1] _ [p2 E2]
                  |a st|a st1 st2 st3 _ [p1 E1] _ [p2 E2]
                  |a st|a st st' _ IH|a st|name a st st' _ IH].
  - by exists [].
  - exists [c]. by rewrite E.
  - exists [d]. by rewrite E.
  - by exists [].
  - by exists [].
  - exists (p1 ++ p2). by rewrite E1, E2, app_assoc.
  - by exists [].
  - exists (p1 ++ p2). by rewrite E1, E2, app_assoc.
  - by exists [].
  - done.
  - by exists [].
  - done.
Qed.

(** A pattern without groups leaves the groups as they are. *)
Lemma matches_groups r st st' :
  matches r st st' -> group_names r = [] -> groups st' = groups st.
Proof.
  induction 1 as [st|c s' st E|d s' st E _|st _|st _
                  |a b st1 st2 st3 _ IH1 _ IH2
                  |a st|a st1 st2 st3 _ IH1 _ IH2
                  |a st|a st st' _ IH|a st|name a st st' _ IH];
    simpl; intros Hn; try done.
  - apply app_eq_nil in Hn as [Ha Hb]. by rewrite IH2, IH1.
  - by rewrite IH2, IH1.
  - by apply IH.
Qed.

Lemma consumed_app (st st' : cursor) (pre : str) :
  rest st = pre ++ rest st' -> consumed st st' = pre.
Proof.
  intros E. unfold consumed. rewrite E, length_app.
  replace (length pre + length (rest st') - length (rest st'))%nat
    with (length pre) by lia.
  by rewrite take_app_length.
Qed.

Lemma matches_Seq_inv a b st1 st3 :
  matches (Seq a b) st1 st3 ->
  exists st2, matches a st1 st2 /\ matches b st2 st3.
Proof. inversion 1; subst. by eexists. Qed.

Lemma matches_Group_inv name a st st'' :
  matches (Group name a) st st'' ->
  exists st', matches a st st' /\ st'' = set_group name (consumed st st') st'.
Proof. inversion 1; subst. by eexists. Qed.

(** A literal string matches itself. *)
Lemma matches_Lits s st st' :
  matches (Lits s) st st' -> rest st = s ++ rest st'.
Proof.
  revert st. induction s as [|c s IH]; intros st H; simpl in H.
  - by inversion H; subst.
  - apply matches_Seq_inv in H as (st2 & Hc & Hs).
    apply IH in Hs. inversion Hc as [|c0 s' st0 E| | | | | | | | | |]; subst.
    simpl in Hs. rewrite E, Hs. done.
Qed.

Lemma group_names_Lits s : group_names (Lits s) = [].
Proof. induction s; simpl; done. Qed.

(** [[ ]*] matches blanks. *)
Lemma matches_spaces st st' :
  matches D2NB.spaces st st' ->
  exists n, rest st = repeat SP n ++ rest st'.
Proof.
  unfold D2NB.spaces. intros H.
  remember (Star (Lit SP)) as r eqn:Er.
  induction H as [| | | | | |a st|a st1 st2 st3 Ha _ _ IH| | | |];
    try discriminate.
  - by exists 0%nat.
  - injection Er as ->. destruct (IH eq_refl) as [n E].
    inversion Ha as [|c s' st0 E1| | | | | | | | | |]; subst.
    exists (S n). simpl in *. by rewrite E1, E.
Qed.
End Matcher.

(** ** The transcript parser *)
Section Transcript.
Import Re Spec.

(** Every match of [_EXAMPLE_RE] has its two groups: [indent] holds
    blanks, and [source] starts with the indentation and the prompt
    marker. *)
Lemma example_match_groups (st0 m : cursor) :
  groups st0 = [] ->
  matches D2NB._EXAMPLE_RE st0 m ->
  exists n body,
    group m "indent" = Some (repeat SP n)
    /\ group m "source" = Some (repeat SP n ++ lit ">>>" ++ body).
Proof.
  intros G0 H. unfold D2NB._EXAMPLE_RE, D2NB.PS1_line in H.
  set (prompt := lit ">>>") in *.
  apply matches_Seq_inv in H as (st1 & Hsrc & Htail).
  apply matches_Group_inv in Hsrc as (stA & Hsrc & ->).
  apply matches_Seq_inv in Hsrc as (stB & Hps1 & Hps2).
  apply matches_Seq_inv in Hps1 as (st0' & Hbol & Hps1).
  inversion Hbol; subst st0'. clear Hbol.
  apply matches_Seq_inv in Hps1 as (stI & Hind & Hps1).
  apply matches_Group_inv in Hind as (stS & Hsp & ->).
  apply matches_Seq_inv in Hps1 as (stC & Hlit & Hdot).
  destruct (matches_spaces _ _ Hsp) as [n En].
  pose proof (matches_groups _ _ _ Hsp eq_refl) as Gs.
  pose proof (matches_Lits _ _ _ Hlit) as El. simpl in El.
  pose proof (matches_groups _ _ _ Hlit (group_names_Lits _)) as Gl.
  destruct (matches_rest _ _ _ Hdot) as [p1 E1].
  pose proof (matches_groups _ _ _ Hdot eq_refl) as Gd.
  destruct (matches_rest _ _ _ Hps2) as [p2 E2].
  pose proof (matches_groups _ _ _ Hps2 eq_refl) as G2.
  apply matches_Seq_inv in Htail as (st2 & Hopt & Hwant).
  pose proof (matches_groups _ _ _ Hopt eq_refl) as Go.
  apply matches_Group_inv in Hwant as (stW & Hw & ->).
  pose proof (matches_groups _ _ _ Hw eq_refl) as Gw.
  exists n, (p1 ++ p2).
  unfold group. simpl. rewrite Gw, Go. simpl.
  rewrite G2, Gd, Gl. simpl.
  rewrite (consumed_app _ _ (repeat SP n) En).
  rewrite (consumed_app st0 stA (repeat SP n ++ prompt ++ p1 ++ p2)).
  - done.
  - rewrite En, El, E1, E2. by rewrite <- !app_assoc.
Qed.

(** The matches that [finditer] yields are matches of the pattern. *)
Lemma scan_matches (r : regex) (n : nat) :
  forall st m, m ∈ scan n r st -> exists st0, match_at r st0 = Some m.
Proof.
  induction n as [|n IH]; intros st m Hm; simpl in Hm.
  - by apply elem_of_nil in Hm.
  - assert (Hstep : m ∈ match rest st with
                         | [] => []
                         | c :: s' => scan n r (advance c s' st)
                         end -> exists st0, match_at r st0 = Some m).
    { destruct (rest st); [by intros ?%elem_of_nil | apply IH]. }
    destruct (match_at r st) as [m0|] eqn:E; [|by apply Hstep].
    destruct (length (rest m0) <? length (rest st))%nat;
      apply elem_of_cons in Hm as [->|Hm]; eauto.
Qed.

Lemma finditer_example_groups (txt : str) (m : cursor) :
  m ∈ finditer D2NB._EXAMPLE_RE txt ->
  exists n body,
    group m "indent" = Some (repeat SP n)
    /\ group m "source" = Some (repeat SP n ++ lit ">>>" ++ body).
Proof.
  intros Hm. apply scan_matches in Hm as [st0 Hm].
  unfold match_at in Hm. apply rmatch_sound in Hm as (m' & Hm & [= ->]).
  by apply example_match_groups in Hm.
Qed.
(** Joining lists of lines. *)
Lemma join_cons (sep p : str) (ps : list str) :
  ps <> [] -> join sep (p :: ps) = p ++ sep ++ join sep ps.
Proof. by destruct ps. Qed.

Lemma join_app (sep : str) (l1 l2 : list str) :
  l1 <> [] -> l2 <> [] ->
  join sep (l1 ++ l2) = join sep l1 ++ sep ++ join sep l2.
Proof.
  intros H1 H2. induction l1 as [|p l1 IH]; [done|].
  destruct l1 as [|q l1].
  - simpl app. by rewrite join_cons.
  - change ((p :: q :: l1) ++ l2) with (p :: ((q :: l1) ++ l2)).
    rewrite !join_cons by done. rewrite IH by done.
    by rewrite <- !app_assoc.
Qed.

(** Joining the joined lines of several non-empty groups of lines is
    joining all the lines. *)
Lemma join_join (sep : str) (Ls : list (list str)) :
  Forall (fun L => L <> []) Ls ->
  join sep (map (join sep) Ls) = join sep (concat Ls).
Proof.
  induction 1 as [|L Ls HL HLs IH]; [done|].
  destruct Ls as [|L' Ls].
  - simpl. by rewrite app_nil_r.
  - change (map (join sep) (L :: L' :: Ls))
      with (join sep L :: map (join sep) (L' :: Ls)).
    rewrite join_cons by done. rewrite IH.
    change (concat (L :: L' :: Ls)) with (L ++ concat (L' :: Ls)).
    rewrite join_app; [done|done|].
    simpl. inversion HLs; subst. by destruct L'.
Qed.

Lemma mapM_all_Some {A B} (f : A -> option B) (g : A -> B) (l : list A) :
  Forall (fun x => f x = Some (g x)) l -> mapM f l = Some (map g l).
Proof.
  induction 1 as [|x l Hx _ IH]; [done|].
  simpl. by rewrite Hx, IH.
Qed.

(** The result of [parse_doctest], for every text: the lines of all the
    examples, cut and joined. *)
Lemma parse_doctest_lines (doctest_txt : str) :
  D2NB.parse_doctest doctest_txt
  = Some (join eol
            (concat (map stripped_source_lines
                       (finditer D2NB._EXAMPLE_RE
                          (dedent (expandtabs doctest_txt)))))).
Proof.
  set (examples := finditer _ _).
  assert (Hall : Forall (fun m => exists n body,
                    group m "indent" = Some (repeat SP n)
                    /\ group m "source"
                       = Some (repeat SP n ++ lit ">>>" ++ body)) examples).
  { apply Forall_forall. intros m Hm. by apply finditer_example_groups in Hm. }
  unfold D2NB.parse_doctest. fold examples.
  rewrite (mapM_all_Some _ (fun m => join eol (stripped_source_lines m))).
  - simpl. f_equal. rewrite <- join_join.
    + by rewrite map_map.
    + apply Forall_fmap. eapply Forall_impl; [exact Hall|].
      intros m (n & body & Hi & Hs). simpl.
      unfold stripped_source_lines. rewrite Hs. simpl.
      intros E. apply map_eq_nil, splitlines_nil in E.
      by destruct n.
  - eapply Forall_impl; [exact Hall|].
    intros m (n & body & Hi & Hs).
    unfold D2NB.example_source, stripped_source_lines, slice_from.
    by rewrite Hi, Hs.
Qed.

End Transcript.

(** ** Transcript blocks in the notebook *)
Section DoctestBlocks.
Import Spec.

(** C3, as the code has it: for a transcript block the notebook translator
    strips the block's text and, if and only if the stripped text is not
    empty, parses it and appends a code cell that holds the extracted
    source, which may be empty; in both cases the subtree is skipped. *)
Theorem doctest_block_cell_iff_text_nonempty
  (self : D2NB.Translator) (parent : option node) (node : node) :
  let doctest_txt := strip (node_astext node) in
  exists src,
    D2NB.parse_doctest doctest_txt = Some src
    /\ D2NB.visit_doctest_block self parent node
       = Raise SkipNode
           (if str_eqb doctest_txt [] then self
            else D2NB.add_code_block src self)
    /\ D2NB._notebook (D2NB.add_code_block src self)
       = D2NB._notebook (D2NB.flush_text self) ++ [D2NB.new_code_cell src]
    /\ (forall default,
          getattr (visits D2NB.Translator_class) "doctest_block" default
          = D2NB.visit_doctest_block).
Proof.
  intros doctest_txt.
  eexists. split; [apply parse_doctest_lines|].
  split_and!; [|done|done].
  unfold D2NB.visit_doctest_block. fold doctest_txt.
  rewrite parse_doctest_lines. unfold str_eqb.
  destruct doctest_txt; [done|]. by rewrite bool_decide_eq_false_2.
Qed.

(** C3 as stated fails: for the block that holds a bare prompt the
    extracted source is empty and a code cell, an empty one, is appended
    all the same; so it is for a block without any prompt. *)
Lemma doctest_block_empty_source_cell :
  D2NB.parse_doctest (strip (node_astext (Examples.doctest_block (lit ">>>"))))
  = Some []
  /\ D2NB.translate Examples.bare_prompt = inr [D2NB.new_code_cell []]
  /\ D2NB.parse_doctest
       (strip (node_astext (Examples.doctest_block (lit "hello"))))
     = Some []
  /\ D2NB.translate Examples.no_prompt = inr [D2NB.new_code_cell []].
Proof. split_and!; vm_compute; reflexivity. Qed.
End DoctestBlocks.

(** ** Further properties of the buffer engine *)
Section EngineMore.
Import Spec More.
Implicit Types (self : D2M.Translator) (s : str).

Lemma current_add s self : current (D2M.add s self) = current self ++ [s].
Proof. apply get_current_output_add. Qed.

(** [ensure_eol] appends a line break when the last fragment is not empty
    and does not end in one, and otherwise leaves the translator as it
    is. *)
Lemma ensure_eol_cases self :
  match last (current self) with
  | Some frag =>
      match last frag with
      | Some c =>
          if (c =? LF)%N then D2M.ensure_eol self = self
          else D2M.ensure_eol self = D2M.add eol self
      | None => D2M.ensure_eol self = self
      end
  | None => D2M.ensure_eol self = self
  end.
Proof.
  unfold D2M.ensure_eol, current.
  destruct (last (D2M.get_current_output D2M.sec_body self)) as [frag|];
    [|done].
  destruct (last frag) as [c|]; [|done]. by destruct (c =? LF)%N.
Qed.

(** After [ensure_eol] the current output ends in a line feed when its
    last fragment was not empty. *)
Lemma ensure_eol_last_char self :
  match last (current self) with
  | Some (c :: frag) =>
      last (concat (current (D2M.ensure_eol self))) = Some LF
  | _ => D2M.ensure_eol self = self
  end.
Proof.
  pose proof (ensure_eol_cases self) as H.
  destruct (last (current self)) as [[|c0 frag]|] eqn:E; [done| |done].
  destruct (last (c0 :: frag)) as [c|] eqn:Ec;
    [|by apply last_None in Ec].
  destruct (N.eqb_spec c LF) as [->|Hne]; rewrite H.
  - apply last_Some in E as [l ->].
    rewrite concat_app. simpl. rewrite app_nil_r.
    apply last_Some in Ec as [f' ->].
    by rewrite app_assoc, last_snoc.
  - rewrite current_add, concat_app. unfold eol. simpl.
    by rewrite last_snoc.
Qed.

(** X1: [ensure_eol] is idempotent; when the last fragment of the current
    output is not empty, the current output ends in a line feed afterwards;
    when the current output is empty or its last fragment is the empty
    string, nothing is written, whatever the text before it ends in. *)
Theorem ensure_eol_ends_line self :
  D2M.ensure_eol (D2M.ensure_eol self) = D2M.ensure_eol self
  /\ match last (current self) with
     | Some (c :: frag) =>
         last (concat (current (D2M.ensure_eol self))) = Some LF
     | _ => D2M.ensure_eol self = self
     end.
Proof.
  pose proof (ensure_eol_cases self) as H.
  destruct (last (current self)) as [frag|] eqn:E.
  - destruct (last frag) as [c|] eqn:Ec.
    + destruct (N.eqb_spec c LF) as [->|Hne].
      * rewrite !H. split; [done|].
        destruct frag as [|c0 frag]; [done|].
        apply last_Some in E as [l ->].
        rewrite concat_app. simpl. rewrite app_nil_r.
        apply last_Some in Ec as [f' ->].
        by rewrite app_assoc, last_snoc.
      * assert (Hl : last (concat (current (D2M.add eol self))) = Some LF).
        { rewrite current_add, concat_app. unfold eol. simpl.
          by rewrite last_snoc. }
        split.
        -- rewrite H. pose proof (ensure_eol_cases (D2M.add eol self)) as H2.
           rewrite current_add, last_snoc in H2. simpl in H2. done.
        -- destruct frag; [done|]. by rewrite H.
    + apply last_None in Ec as ->. rewrite !H. done.
  - rewrite !H. done.
Qed.
End EngineMore.

Section BlockEnds.
Import Spec More.
Implicit Types (self : D2M.Translator) (s : str).

Lemma same_but_current_add s self :
  same_but_current self (D2M.add s self).
Proof.
  unfold same_but_current, D2M.add, D2M.add_to.
  destruct (last (D2M.indent_levels self)) as [level|] eqn:E; simpl.
  - split_and!; try done. by eexists.
  - split_and!; try done. by apply last_None in E.
Qed.

Lemma same_but_current_add_add s1 s2 self :
  same_but_current self (D2M.add s2 (D2M.add s1 self)).
Proof.
  unfold same_but_current, D2M.add, D2M.add_to.
  destruct (last (D2M.indent_levels self)) as [level|] eqn:E; simpl.
  - rewrite last_snoc. simpl. rewrite removelast_last.
    split_and!; try done. by eexists.
  - rewrite E. simpl. split_and!; try done. by apply last_None in E.
Qed.

(** X2: leaving a paragraph or a heading writes to the current output
    only: everything else in the translator stays as it is; it adds a bare
    line break as the last fragment, and, when the last fragment before
    was not empty, leaves the current output ending in a blank line (two
    line feeds). *)
Theorem depart_paragraph_leaves_blank_line self parent node :
  D2M.depart_title self parent node = D2M.depart_paragraph self parent node
  /\ exists self',
       D2M.depart_paragraph self parent node = Ok self'
       /\ same_but_current self self'
       /\ last (current self') = Some eol
       /\ (current self' = current self ++ [eol]
           \/ current self' = current self ++ [eol; eol])
       /\ match last (current self) with
          | Some (c :: frag) =>
              exists t, concat (current self') = t ++ [LF; LF]
          | _ => current self' = current self ++ [eol]
          end.
Proof.
  split; [done|]. eexists. split; [done|].
  split.
  { unfold D2M.ensure_eol. repeat case_match;
      auto using same_but_current_add, same_but_current_add_add. }
  rewrite current_add. split_and!.
  - by rewrite last_snoc.
  - pose proof (ensure_eol_cases self) as H.
    destruct (last (current self)) as [frag|]; [|left; by rewrite H].
    destruct (last frag) as [c|]; [|left; by rewrite H].
    destruct (c =? LF)%N; rewrite H; [by left|right].
    by rewrite current_add, <- app_assoc.
  - pose proof (ensure_eol_last_char self) as H.
    destruct (last (current self)) as [[|c frag]|]; try by rewrite H.
    apply last_Some in H as [t Ht].
    exists t. rewrite concat_app, Ht. simpl. by rewrite <- app_assoc.
Qed.

(** What [adds] leaves on a stack whose innermost level is [level]. *)
Lemma adds_innermost fragments : forall self levels level,
  D2M.indent_levels self = levels ++ [level] ->
  adds fragments self
  = D2M.set_indent_levels
      (levels
       ++ [D2M.mkIndentLevel (D2M.base level) (D2M.prefix level)
             (D2M.first_prefix level) (D2M.content level ++ fragments)])
      self.
Proof.
  induction fragments as [|s fs IH]; intros self levels level E; simpl.
  - rewrite app_nil_r. destruct self, level. simpl in *. by rewrite E.
  - rewrite (IH _ levels (D2M.IndentLevel_append s level)).
    + unfold D2M.add, D2M.add_to. rewrite E, last_snoc. simpl.
      by rewrite <- app_assoc.
    + unfold D2M.add, D2M.add_to. rewrite E, last_snoc. simpl.
      by rewrite removelast_last.
Qed.

(** Appending to the base of a level that has just been opened on [self]
    and closed again is writing to the current output of [self]. *)
Lemma base_append_fresh_level sec text self :
  D2M.base_append
    (match D2M.indent_levels self with
     | [] => D2M.BaseList sec
     | _ => D2M.BaseContent (length (D2M.indent_levels self) - 1)
     end) text self
  = D2M.add_to sec text self.
Proof.
  unfold D2M.add_to.
  destruct (D2M.indent_levels self) as [|l0 ls] eqn:E; [done|].
  assert (Hl : is_Some (last (l0 :: ls))) by by apply last_is_Some.
  destruct Hl as [x Hx]. rewrite Hx.
  apply last_Some in Hx as [l' Hl']. rewrite Hl'.
  unfold D2M.base_append. rewrite E, Hl', removelast_last.
  rewrite length_app, Nat.add_sub.
  replace (length l') with (length l' + 0)%nat at 1 by lia.
  by rewrite alter_app_r.
Qed.

(** X3: opening an indentation context on any translator, writing
    fragments and closing it again gives the translator back with, at
    most, one fragment more: nothing when the fragments hold no text,
    otherwise the materialised text, written where [add] on the translator
    would have written (in [section] when no context is open). *)
Theorem level_round_trip self prefix first_prefix section fragments :
  D2M.finish_level
    (adds fragments (D2M.start_level prefix first_prefix section self))
  = Ok (match materialize prefix (default prefix first_prefix) fragments with
        | None => self
        | Some text => D2M.add_to section text self
        end).
Proof.
  rewrite (adds_innermost fragments _ (D2M.indent_levels self)
             (D2M.IndentLevel_init
                (match D2M.indent_levels self with
                 | [] => D2M.BaseList section
                 | _ => D2M.BaseContent (length (D2M.indent_levels self) - 1)
                 end) prefix first_prefix)) by done.
  unfold D2M.finish_level. simpl. rewrite last_snoc, removelast_last.
  rewrite IndentLevel_write_materialize. simpl.
  replace (match first_prefix with Some fp => fp | None => prefix end)
    with (default prefix first_prefix) by by destruct first_prefix.
  destruct (materialize _ _ _) as [text|]; f_equal.
  - rewrite <- (base_append_fresh_level section text self). by destruct self.
  - by destruct self.
Qed.
End BlockEnds.

(** ** Lines of a materialised context *)
Section PrefixedLines.
Import Spec More.
Implicit Types (s l body cur : str) (ls : list str).

Lemma forallb_reverse {A} (f : A -> bool) (l : list A) :
  forallb f (rev l) = forallb f l.
Proof.
  induction l as [|x l IH]; [done|].
  simpl. rewrite forallb_app, IH. simpl. rewrite andb_true_r.
  apply andb_comm.
Qed.

Lemma one_line_app s1 s2 :
  one_line (s1 ++ s2) = one_line s1 && one_line s2.
Proof. apply forallb_app. Qed.

Lemma terminated_snoc body : terminated (body ++ [LF]) = one_line body.
Proof.
  unfold terminated. rewrite rev_app_distr. simpl.
  unfold one_line. by rewrite forallb_reverse.
Qed.

Lemma terminated_inv l :
  terminated l = true -> exists body, l = body ++ [LF] /\ one_line body = true.
Proof.
  unfold terminated. destruct (rev l) as [|c b] eqn:E; [done|].
  intros [->%N.eqb_eq Hb]%andb_true_iff.
  exists (rev b). split.
  - by rewrite <- (rev_involutive l), E.
  - unfold one_line. by rewrite forallb_reverse.
Qed.

(** A terminated line comes out of [splitlines] as it is. *)
Lemma splitlines_from_terminated body : forall cur s,
  one_line body = true ->
  splitlines_from true cur (body ++ LF :: s)
  = (rev cur ++ body ++ [LF]) :: splitlines_from true [] s.
Proof.
  induction body as [|c body IH]; intros cur s Hb.
  - simpl app. rewrite splitlines_from_cons. simpl.
    destruct s; simpl; [done|]. done.
  - simpl in Hb. apply andb_true_iff in Hb as [Hc Hb].
    simpl app. rewrite splitlines_from_cons.
    apply negb_true_iff in Hc. rewrite Hc.
    rewrite IH by done. simpl. by rewrite <- app_assoc.
Qed.

(** So does a last line without a terminator. *)
Lemma splitlines_from_one_line body : forall cur,
  one_line body = true ->
  splitlines_from true cur body
  = match rev cur ++ body with [] => [] | l => [l] end.
Proof.
  induction body as [|c body IH]; intros cur Hb.
  - simpl. rewrite app_nil_r. destruct cur as [|c cur]; [done|].
    simpl. by destruct (rev cur).
  - simpl in Hb. apply andb_true_iff in Hb as [Hc Hb].
    rewrite splitlines_from_cons.
    apply negb_true_iff in Hc. rewrite Hc.
    rewrite IH by done. simpl. by rewrite <- app_assoc.
Qed.

(** Lines in order, put together and split again, are the same lines. *)
Lemma splitlines_lines_in_order ls :
  lines_in_order ls = true -> splitlines true (concat ls) = ls.
Proof.
  unfold splitlines. induction ls as [|l ls IH]; [done|].
  intros H. simpl in H. destruct ls as [|l' ls].
  - simpl. rewrite app_nil_r.
    apply orb_true_iff in H as [H|H].
    + apply terminated_inv in H as (body & -> & Hb).
      by rewrite splitlines_from_terminated.
    + apply andb_true_iff in H as [Hl Hne].
      rewrite splitlines_from_one_line by done. simpl.
      destruct l; [|done]. by rewrite bool_decide_eq_true_2 in Hne.
  - apply andb_true_iff in H as [Hl Hls].
    apply terminated_inv in Hl as (body & -> & Hb).
    change (concat ((body ++ [LF]) :: l' :: ls))
      with ((body ++ [LF]) ++ concat (l' :: ls)).
    rewrite <- app_assoc. simpl ([LF] ++ _).
    rewrite splitlines_from_terminated by done.
    change (l' ++ concat ls) with (concat (l' :: ls)).
    rewrite IH by done. done.
Qed.
Lemma lines_in_order_cons l ls :
  terminated l = true -> lines_in_order ls = true ->
  lines_in_order (l :: ls) = true.
Proof.
  intros Hl Hls. simpl. destruct ls; [by rewrite Hl | by rewrite Hl, Hls].
Qed.

(** The lines of a text whose only line boundary is the line feed are in
    order. *)
Lemma splitlines_from_in_order s : forall cur,
  one_line cur = true -> lf_only s = true ->
  lines_in_order (splitlines_from true cur s) = true.
Proof.
  induction s as [|c s IH]; intros cur Hcur Hs.
  - destruct cur as [|c cur]; [done|].
    cbn [splitlines_from lines_in_order].
    unfold one_line. rewrite forallb_reverse. fold (one_line (c :: cur)).
    rewrite Hcur. rewrite bool_decide_eq_false_2; [apply orb_true_r|].
    intros E. apply (f_equal (@length char)) in E.
    rewrite length_rev in E. done.
  - simpl in Hs. apply andb_true_iff in Hs as [Hc Hs].
    rewrite splitlines_from_cons.
    destruct (is_linebreak c) eqn:Eb.
    + simpl in Hc. apply N.eqb_eq in Hc as ->.
      assert (Ht : terminated (rev (LF :: cur)) = true).
      { simpl. rewrite terminated_snoc. unfold one_line.
        by rewrite forallb_reverse. }
      destruct s as [|c' s'']; [by cbn [lines_in_order]; rewrite Ht|].
      change ((LF =? CR)%N && (c' =? LF)%N) with false. cbv iota.
      apply lines_in_order_cons; [done|]. by apply IH.
    + apply IH; [|done]. simpl. by rewrite Eb.
Qed.

(** Putting something without a line boundary in front of a line, or a
    bare line break in its place, keeps the lines in order. *)
Lemma terminated_prefixed p l :
  one_line p = true -> terminated l = true -> terminated (p ++ l) = true.
Proof.
  intros Hp (body & -> & Hb)%terminated_inv.
  rewrite app_assoc, terminated_snoc, one_line_app. by rewrite Hp, Hb.
Qed.

Lemma lines_in_order_map (g : str -> str) :
  (forall l, terminated l = true -> terminated (g l) = true) ->
  (forall l, one_line l = true -> l <> [] ->
     terminated (g l) || (one_line (g l) && negb (bool_decide (g l = [])))
     = true) ->
  forall ls (h : str -> str) l0,
    (forall l, terminated l = true -> terminated (h l) = true) ->
    (forall l, one_line l = true -> l <> [] ->
       terminated (h l) || (one_line (h l) && negb (bool_decide (h l = [])))
       = true) ->
    lines_in_order (l0 :: ls) = true ->
    lines_in_order (h l0 :: map g ls) = true.
Proof.
  intros Hg1 Hg2. induction ls as [|l1 ls IH]; intros h l0 Hh1 Hh2 H.
  - cbn [lines_in_order map] in *.
    apply orb_true_iff in H as [H|[H1 H2]%andb_true_iff].
    + by rewrite Hh1.
    + apply Hh2; [done|]. intros ->. by rewrite bool_decide_eq_true_2 in H2.
  - change (lines_in_order (l0 :: l1 :: ls))
      with (terminated l0 && lines_in_order (l1 :: ls)) in H.
    apply andb_true_iff in H as [H0 H].
    change (map g (l1 :: ls)) with (g l1 :: map g ls).
    apply lines_in_order_cons; [by apply Hh1 | by apply IH].
Qed.

Lemma prefixed_or_eol_in_order prefix :
  one_line prefix = true ->
  (forall l, terminated l = true ->
     terminated (if blank l then eol else prefix ++ l) = true)
  /\ (forall l, one_line l = true -> l <> [] ->
        terminated (if blank l then eol else prefix ++ l)
        || (one_line (if blank l then eol else prefix ++ l)
            && negb (bool_decide
                       ((if blank l then eol else prefix ++ l) = [])))
        = true).
Proof.
  intros Hp. split.
  - intros l Hl. destruct (blank l); [done|]. by apply terminated_prefixed.
  - intros l Hl Hne. destruct (blank l); [done|].
    rewrite one_line_app, Hp, Hl. simpl.
    rewrite bool_decide_eq_false_2; [apply orb_true_r|].
    intros E. apply app_eq_nil in E as [_ E]. done.
Qed.

Lemma first_prefixed_in_order first_prefix :
  one_line first_prefix = true ->
  (forall l, terminated l = true -> terminated (first_prefix ++ l) = true)
  /\ (forall l, one_line l = true -> l <> [] ->
        terminated (first_prefix ++ l)
        || (one_line (first_prefix ++ l)
            && negb (bool_decide (first_prefix ++ l = [])))
        = true).
Proof.
  intros Hp. split.
  - intros l Hl. by apply terminated_prefixed.
  - intros l Hl Hne. rewrite one_line_app, Hp, Hl. simpl.
    rewrite bool_decide_eq_false_2; [apply orb_true_r|].
    intros E. apply app_eq_nil in E as [_ E]. done.
Qed.

(** X4: [IndentLevel.write], for a level whose prefixes hold no line
    boundary and whose content has the line feed as its only line
    boundary, appends to the base of the level one text that has as many
    lines as the content; its first line is [first_prefix] and the first
    line of the content, and every other line is the prefix and the line
    of the content, or a bare line break where that line holds white space
    only.  So no line of the block is left without its prefix but the
    blank ones. *)
Theorem materialized_lines_are_prefixed
  (level : D2M.IndentLevel) (self : D2M.Translator)
  (first : str) (others : list str) :
  one_line (D2M.prefix level) = true ->
  one_line (D2M.first_prefix level) = true ->
  lf_only (concat (D2M.content level)) = true ->
  splitlines true (concat (D2M.content level)) = first :: others ->
  exists text,
    D2M.IndentLevel_write level self
    = D2M.base_append (D2M.base level) text self
    /\ splitlines true text
       = (D2M.first_prefix level ++ first)
         :: map (fun l => if blank l then eol else D2M.prefix level ++ l)
              others
    /\ Forall (fun l => l = eol \/ exists r, l = D2M.prefix level ++ r)
         (map (fun l => if blank l then eol else D2M.prefix level ++ l)
            others).
Proof.
  intros Hp Hfp Hlf Hsplit.
  rewrite IndentLevel_write_materialize. unfold materialize.
  pose proof (splitlines_from_in_order (concat (D2M.content level)) []
                eq_refl Hlf) as Ho.
  fold (splitlines true (concat (D2M.content level))) in Ho.
  rewrite Hsplit in Ho |- *.
  eexists. split; [reflexivity|]. split.
  - rewrite app_assoc.
    change ((D2M.first_prefix level ++ first) ++ concat ?m)
      with (concat ((D2M.first_prefix level ++ first) :: m)).
    apply splitlines_lines_in_order.
    destruct (prefixed_or_eol_in_order (D2M.prefix level) Hp) as [Hg1 Hg2].
    destruct (first_prefixed_in_order (D2M.first_prefix level) Hfp)
      as [Hh1 Hh2].
    by apply (lines_in_order_map _ Hg1 Hg2 others
                (app (D2M.first_prefix level))).
  - apply Forall_fmap, Forall_forall. intros l _. simpl.
    destruct (blank l); [by left | right; by eexists].
Qed.

Lemma materialized_lines_witness :
  let level :=
    D2M.mkIndentLevel (D2M.BaseList D2M.sec_body) (lit "> ") (lit "> ")
      [lit "a" ++ eol; lit "  " ++ eol ++ lit "b"] in
  one_line (D2M.prefix level) = true
  /\ one_line (D2M.first_prefix level) = true
  /\ lf_only (concat (D2M.content level)) = true
  /\ splitlines true (concat (D2M.content level))
     = [lit "a" ++ eol; lit "  " ++ eol; lit "b"]
  /\ exists text,
       D2M.IndentLevel_write level (D2M.init [])
       = D2M.base_append (D2M.base level) text (D2M.init [])
       /\ splitlines true text = [lit "> a" ++ eol; eol; lit "> b"].
Proof.
  intros level. do 4 (split; [reflexivity|]).
  destruct (materialized_lines_are_prefixed level (D2M.init [])
              (lit "a" ++ eol) [lit "  " ++ eol; lit "b"]
              eq_refl eq_refl eq_refl eq_refl)
    as (text & H1 & H2 & _).
  exists text. split; [exact H1|exact H2].
Defined.
End PrefixedLines.

(** ** The nesting state over a walk *)
Section Balanced.
Import Spec More.
Implicit Types (self : D2M.Translator) (s : str).

Lemma nesting_add s self : nesting (D2M.add s self) = nesting self.
Proof.
  unfold nesting, D2M.add, D2M.add_to.
  destruct (last (D2M.indent_levels self)) as [lv|] eqn:E; simpl; [|done].
  apply last_Some in E as [l' ->].
  by rewrite removelast_last, !length_app.
Qed.

Lemma nesting_ensure_eol self : nesting (D2M.ensure_eol self) = nesting self.
Proof.
  unfold D2M.ensure_eol. repeat case_match; try done. apply nesting_add.
Qed.

Lemma nesting_start_level prefix first_prefix sec self :
  nesting (D2M.start_level prefix first_prefix sec self)
  = (S (length (D2M.indent_levels self)),
     length (D2M.list_prefixes self), D2M.section_level self).
Proof. unfold nesting. simpl. rewrite length_app. simpl. do 2 f_equal. lia. Qed.

Lemma nesting_finish_level self self' :
  D2M.finish_level self = Ok self' ->
  nesting self
  = (S (length (D2M.indent_levels self')),
     length (D2M.list_prefixes self'), D2M.section_level self').
Proof.
  unfold D2M.finish_level.
  destruct (last (D2M.indent_levels self)) as [level|] eqn:E; [|done].
  intros [= <-]. apply last_Some in E as [l' E].
  rewrite IndentLevel_write_materialize. unfold nesting.
  rewrite E, removelast_last, length_app. simpl.
  assert (Hl : (length l' + 1 = S (length l'))%nat) by lia. rewrite Hl.
  destruct (materialize _ _ _) as [text|]; [|done].
  destruct (D2M.base level) as [sec|i]; simpl.
  - by destruct sec.
  - by rewrite length_alter.
Qed.
Lemma length_removelast_cons {A} (x : A) (l : list A) :
  length (removelast (x :: l)) = length l.
Proof.
  revert x. induction l as [|y l IH]; intros x; [done|].
  change (removelast (x :: y :: l)) with (x :: removelast (y :: l)).
  cbn [length]. by rewrite IH.
Qed.

(** Brings the effect of a method on the nesting state to arithmetic. *)
Ltac nesting_effect :=
  repeat match goal with
    | H : D2M.finish_level _ = Ok _ |- _ => apply nesting_finish_level in H
    | H : Ok _ = Ok _ |- _ => injection H as H
    | H : Raise _ _ = Raise _ _ |- _ => inversion H; clear H
    | H : context [nesting (D2M.add _ _)] |- _ => rewrite nesting_add in H
    | H : context [nesting (D2M.ensure_eol _)] |- _ =>
        rewrite nesting_ensure_eol in H
    | H : context [nesting (D2M.start_level _ _ _ _)] |- _ =>
        rewrite nesting_start_level in H
    | |- context [nesting (D2M.add _ _)] => rewrite nesting_add
    | |- context [nesting (D2M.ensure_eol _)] => rewrite nesting_ensure_eol
    end.

(** A visit that raises [SkipNode] leaves the nesting state alone; a visit
    that returns and the departure of the same node, with whatever keeps
    the nesting state in between, leave it alone together. *)
Lemma dispatch_balanced self parent node :
  match dispatch_visit D2M.Translator_class self parent node with
  | Ok v1 =>
      forall v2 v3,
        nesting v2 = nesting v1 ->
        dispatch_departure D2M.Translator_class v2 parent node = Ok v3 ->
        nesting v3 = nesting self
  | Raise SkipNode v1 => nesting v1 = nesting self
  | Raise _ _ => True
  end.
Proof.
  unfold dispatch_visit, dispatch_departure.
  generalize (class_name node) at 1 2. intros name.
  remember (visits D2M.Translator_class) as vt eqn:Ev.
  remember (departs D2M.Translator_class) as dt eqn:Ed.
  remember (unknown_visit_of D2M.Translator_class) as uv eqn:Eu.
  remember (unknown_departure_of D2M.Translator_class) as ud eqn:Eud.
  unfold D2M.Translator_class, D2M.decorated in Ev, Ed, Eu, Eud.
  simpl in Ev, Ed, Eu, Eud. subst vt dt uv ud.
  cbn [getattr].
  repeat match goal with
    | |- context [String.eqb ?l name] =>
        destruct (String.eqb_spec l name) as [<-|?]; [simpl getattr|]
    end.
  all: unfold D2M.pass, D2M._make_method, D2M.visit_Text,
         D2M.depart_paragraph, D2M.visit_math_block, D2M.depart_math_block,
         D2M.visit_literal_block, D2M.depart_literal_block,
         D2M.visit_block_quote, D2M.depart_block_quote, D2M.visit_section,
         D2M.depart_section, D2M.visit_enumerated_list,
         D2M.visit_bullet_list, D2M.depart_bullet_list,
         D2M.depart_enumerated_list, D2M.visit_list_item,
         D2M.depart_list_item, D2M.visit_subtitle, D2M.visit_docinfo_item,
         D2M.visit_system_message, D2M.visit_title, D2M.depart_title,
         D2M.visit_comment, D2M.visit_transition, D2M.visit_reference,
         D2M.unknown_visit, D2M.unknown_departure.
  all: repeat case_match; cbv beta iota; try done.
  all: try (intros v2 v3 Hn Hd).
  all: nesting_effect.
  all: repeat case_match; cbv beta iota; try done.
  all: nesting_effect; subst; nesting_effect.
  all: try congruence.
  all: unfold nesting in *; simpl in *; simplify_eq.
  all: repeat match goal with
         | |- context [match ?l with [] => [] | _ :: _ => ?s :: removelast ?l end] =>
             change (match l with [] => [] | _ :: _ => s :: removelast l end)
               with (removelast (s :: l));
             rewrite length_removelast_cons
         end.
  all: try congruence.
  all: try (f_equal; [f_equal|]; first [lia | congruence]).
  all: repeat match goal with
         | H : D2M.list_prefixes _ = _ :: _ |- _ => rewrite H in *; clear H
         end.
  all: rewrite ?length_app in *; simpl in *.
  all: try (f_equal; [f_equal|]; first [lia | congruence]).
  all: try done.
Qed.

(** The walk of a node, one step unfolded. *)
Lemma walkabout_Text {T} (dv dd : T -> option node -> node -> result T)
  (v : T) (parent : option node) (data : str) :
  walkabout dv dd v parent (Text data)
  = match dv v parent (Text data) with
    | Raise SkipNode v' => Ok v'
    | Raise e v' => Raise e v'
    | Ok v' => dd v' parent (Text data)
    end.
Proof. simpl. by destruct (dv v parent (Text data)). Qed.

Lemma walkabout_Element {T} (dv dd : T -> option node -> node -> result T)
  (v : T) (parent : option node) tag sep a children :
  walkabout dv dd v parent (Element tag sep a children)
  = match dv v parent (Element tag sep a children) with
    | Raise SkipNode v' => Ok v'
    | Raise e v' => Raise e v'
    | Ok v1 =>
        match
          (fix walk (v : T) (cs : list node) {struct cs} : result T :=
             match cs with
             | [] => Ok v
             | c :: cs' =>
                 match walkabout dv dd v
                         (Some (Element tag sep a children)) c with
                 | Ok v' => walk v' cs'
                 | Raise e v' => Raise e v'
                 end
             end) v1 children
        with
        | Ok v' => dd v' parent (Element tag sep a children)
        | Raise e v' => Raise e v'
        end
    end.
Proof. reflexivity. Qed.

(** The loop over the children, when every child's walk that returns
    keeps the nesting state. *)
Lemma walk_children_nesting (p : option node) (children : list node) :
  Forall (fun c => forall v parent v',
            walkabout (dispatch_visit D2M.Translator_class)
              (dispatch_departure D2M.Translator_class) v parent c = Ok v' ->
            nesting v' = nesting v) children ->
  forall v0 v',
    (fix walk (v : D2M.Translator) (cs : list node) {struct cs}
       : result D2M.Translator :=
       match cs with
       | [] => Ok v
       | c :: cs' =>
           match walkabout (dispatch_visit D2M.Translator_class)
                   (dispatch_departure D2M.Translator_class) v p c with
           | Ok v' => walk v' cs'
           | Raise e v' => Raise e v'
           end
       end) v0 children = Ok v' ->
    nesting v' = nesting v0.
Proof.
  induction 1 as [|c cs Hc _ IHcs]; intros v0 v' H.
  - by injection H as <-.
  - destruct (walkabout _ _ v0 p c) as [v1|e v1] eqn:E; [|done].
    apply Hc in E. apply IHcs in H. congruence.
Qed.

(** X5: a walk of the Markdown translator over any node that returns
    leaves the nesting state as it found it: as many open indentation
    contexts, as many list markers, the same section level.  Every context
    a visit opens is closed by the departure of the same node. *)
Theorem walk_keeps_nesting (n : node) :
  forall self parent self',
    walkabout (dispatch_visit D2M.Translator_class)
      (dispatch_departure D2M.Translator_class) self parent n = Ok self' ->
    nesting self' = nesting self.
Proof.
  induction n as [data|tag sep a children IH] using node_children_ind;
    intros self parent self' H.
  - pose proof (dispatch_balanced self parent (Text data)) as Hb.
    rewrite walkabout_Text in H.
    destruct (dispatch_visit _ self parent (Text data)) as [v1|e v1].
    + by apply (Hb v1).
    + destruct e; try done. by injection H as <-.
  - pose proof (dispatch_balanced self parent (Element tag sep a children))
      as Hb.
    rewrite walkabout_Element in H.
    destruct (dispatch_visit _ self parent (Element tag sep a children))
      as [v1|e v1].
    + match type of H with
      | match ?w with _ => _ end = _ => destruct w as [v2|e v2] eqn:Ew
      end; [|done].
      apply (walk_children_nesting _ children IH) in Ew.
      apply (Hb v2); [done|]. exact H.
    + destruct e; try done. by injection H as <-.
Qed.

Lemma walk_keeps_nesting_witness :
  walkabout (dispatch_visit D2M.Translator_class)
    (dispatch_departure D2M.Translator_class)
    (D2M.init []) None Examples.abc_list
  = Ok (after (walk_document D2M.Translator_class (D2M.init [])
                 Examples.abc_list))
  /\ nesting (after (walk_document D2M.Translator_class (D2M.init [])
                       Examples.abc_list))
     = nesting (D2M.init []).
Proof.
  split; [vm_compute; reflexivity|].
  apply (walk_keeps_nesting Examples.abc_list (D2M.init []) None).
  vm_compute. reflexivity.
Defined.
End Balanced.

(** ** The three output lists over a walk *)
Section Regions.
Import Spec More.
Implicit Types (self : D2M.Translator).

Lemma regions_add s self : regions_kept self -> regions_kept (D2M.add s self).
Proof.
  unfold regions_kept, D2M.add, D2M.add_to. intros (Hf & Hh & Hl).
  destruct (last (D2M.indent_levels self)) as [lv|] eqn:E; simpl;
    [|by split_and!].
  split_and!; [done|done|].
  apply last_Some in E as [l' E]. rewrite E in Hl |- *.
  rewrite removelast_last. apply Forall_app in Hl as [Hl' Hlv].
  apply Forall_app. split; [done|].
  apply Forall_inv in Hlv.
  apply Forall_cons_2; [exact Hlv | apply Forall_nil_2].
Qed.

Lemma regions_ensure_eol self :
  regions_kept self -> regions_kept (D2M.ensure_eol self).
Proof.
  intros H. unfold D2M.ensure_eol. repeat case_match; try done.
  by apply regions_add.
Qed.

Lemma regions_start_level prefix first_prefix self :
  regions_kept self ->
  regions_kept (D2M.start_level prefix first_prefix D2M.sec_body self).
Proof.
  unfold regions_kept. intros (Hf & Hh & Hl). simpl.
  split_and!; [done|done|].
  apply Forall_app. split; [done|].
  apply Forall_cons_2; [|apply Forall_nil_2]. simpl.
  by destruct (D2M.indent_levels self).
Qed.

Lemma regions_finish_level self :
  regions_kept self -> regions_kept (after (D2M.finish_level self)).
Proof.
  unfold D2M.finish_level.
  destruct (last (D2M.indent_levels self)) as [level|] eqn:E; [|done].
  intros (Hf & Hh & Hl). simpl.
  apply last_Some in E as [l' E]. rewrite E in Hl |- *.
  apply Forall_app in Hl as [Hl' [Hb1 Hb2]%Forall_inv].
  rewrite removelast_last, IndentLevel_write_materialize.
  destruct (materialize _ _ _) as [text|]; [|done].
  destruct (D2M.base level) as [sec|i]; simpl.
  - destruct sec; done.
  - split_and!; [done|done|]. simpl.
    apply Forall_forall. intros lv Hlv.
    apply list_elem_of_lookup in Hlv as [j Hj].
    destruct (decide (j = i)) as [->|Hne].
    + rewrite list_lookup_alter_eq in Hj.
      destruct (l' !! i) as [lv0|] eqn:E0; [|done].
      injection Hj as <-. simpl.
      by apply (Forall_lookup_1 _ _ _ _ Hl' E0).
    + rewrite list_lookup_alter_ne in Hj by done.
      by apply (Forall_lookup_1 _ _ _ _ Hl' Hj).
Qed.

Lemma regions_title_marker self :
  regions_kept self ->
  regions_kept (D2M.add_section (lit "# ") D2M.sec_head self).
Proof.
  unfold regions_kept. intros (Hf & Hh & Hl). simpl.
  split_and!; [done| |done].
  apply Forall_app. split; [done|].
  apply Forall_cons_2; [done | apply Forall_nil_2].
Qed.
Lemma regions_set_docinfo d self :
  regions_kept self -> regions_kept (D2M.set_docinfo d self).
Proof. intros H. exact H. Qed.

Lemma regions_set_section_level z self :
  regions_kept self -> regions_kept (D2M.set_section_level z self).
Proof. intros H. exact H. Qed.

Lemma regions_set_list_prefixes l self :
  regions_kept self -> regions_kept (D2M.set_list_prefixes l self).
Proof. intros H. exact H. Qed.

Lemma regions_unknown_visit self parent node :
  regions_kept self ->
  regions_kept (after (D2M.unknown_visit self parent node)).
Proof. intros H. unfold D2M.unknown_visit. by case_bool_decide. Qed.

(** Decides a method of the class body by its cases. *)
Ltac regions_cases :=
  intros self parent node Hkept;
  unfold D2M.pass, D2M.visit_Text, D2M.visit_comment,
    D2M.visit_docinfo_item, D2M.depart_paragraph, D2M.visit_math_block,
    D2M.depart_math_block, D2M.visit_literal_block,
    D2M.depart_literal_block, D2M.visit_block_quote,
    D2M.depart_block_quote, D2M.visit_section, D2M.depart_section,
    D2M.visit_enumerated_list, D2M.visit_bullet_list,
    D2M.depart_bullet_list, D2M.depart_enumerated_list, D2M.visit_list_item,
    D2M.depart_list_item, D2M.visit_subtitle, D2M.visit_system_message,
    D2M.visit_title, D2M.depart_title, D2M.visit_transition,
    D2M.visit_reference, D2M._make_method, D2M.unknown_departure;
  repeat case_match; unfold after;
  eauto 6 using regions_add, regions_ensure_eol, regions_start_level,
    regions_title_marker, regions_set_docinfo, regions_set_section_level,
    regions_set_list_prefixes, regions_finish_level.

Lemma visits_keep_regions :
  Forall (fun nm => preserves regions_kept (snd nm))
    (visits D2M.Translator_class).
Proof.
  unfold D2M.Translator_class, D2M.decorated. simpl.
  repeat (apply Forall_cons_2; [simpl; regions_cases|]). apply Forall_nil_2.
Qed.

Lemma departs_keep_regions :
  Forall (fun nm => preserves regions_kept (snd nm))
    (departs D2M.Translator_class).
Proof.
  unfold D2M.Translator_class, D2M.decorated. simpl.
  repeat (apply Forall_cons_2; [simpl; regions_cases|]). apply Forall_nil_2.
Qed.
Lemma dispatch_visit_keeps_regions :
  preserves regions_kept (dispatch_visit D2M.Translator_class).
Proof.
  intros self parent node. unfold dispatch_visit.
  apply (getattr_Forall (preserves regions_kept)
           (visits D2M.Translator_class) (class_name node)).
  - apply visits_keep_regions.
  - clear. intros self parent node. apply regions_unknown_visit.
Qed.

Lemma dispatch_departure_keeps_regions :
  preserves regions_kept (dispatch_departure D2M.Translator_class).
Proof.
  intros self parent node. unfold dispatch_departure.
  apply (getattr_Forall (preserves regions_kept)
           (departs D2M.Translator_class) (class_name node)).
  - apply departs_keep_regions.
  - clear. intros self parent node H. exact H.
Qed.

Lemma drop_eol_markers (L : list str) :
  Forall (fun f => f = lit "# ") L ->
  D2M.drop_eol L = L /\ concat L = repeat_str (length L) (lit "# ").
Proof.
  intros H. split.
  - unfold D2M.drop_eol. destruct (last L) as [f|] eqn:E; [|done].
    apply last_Some in E as [L' ->].
    apply Forall_app in H as [_ ->%Forall_inv]. done.
  - induction H as [|f L -> _ IH]; [done|]. simpl. by rewrite IH.
Qed.

(** X6: whatever the document, the Markdown translator never writes to
    [foot], and writes to [head] nothing but the marker of a heading met
    at section level 0; so the text it returns is those markers followed
    by the body, with the heading text itself in the body. *)
Theorem foot_never_written (document : node) :
  let visitor :=
    after (walk_document D2M.Translator_class (D2M.init []) document) in
  D2M.foot visitor = []
  /\ Forall (fun f => f = lit "# ") (D2M.head visitor)
  /\ snd (D2M.astext visitor)
     = repeat_str (length (D2M.head visitor)) (lit "# ")
       ++ concat (D2M.drop_eol (D2M.body visitor)).
Proof.
  intros visitor.
  assert (H : regions_kept visitor).
  { apply (walkabout_invariant _ _ regions_kept).
    - apply dispatch_visit_keeps_regions.
    - apply dispatch_departure_keeps_regions.
    - by split_and!. }
  destruct H as (Hf & Hh & _). split_and!; [done|done|].
  destruct (drop_eol_markers _ Hh) as [Hd Hc].
  unfold D2M.astext, join0. simpl. rewrite Hd, Hf, !concat_app, Hc.
  simpl. by rewrite app_nil_r.
Qed.
End Regions.

(** ** The cells of the notebook *)
Section Cells.
Import Spec More.
Implicit Types (self : D2NB.Translator).

(** A notebook translator that has just been flushed: the engine reset,
    the flag cleared, at most one Markdown cell more. *)
Lemma flush_text_eq self :
  D2NB.flush_text self
  = D2NB.mkTranslator
      (D2M.mkTranslator [] [] [] (D2M._warned (D2NB.d2m self)) 0 [] []
         D2M.fresh_docinfo (D2M.warnings (D2NB.d2m self)))
      false
      (match strip (snd (D2M.astext (D2NB.d2m self))) with
       | [] => D2NB._notebook self
       | txt => D2NB._notebook self ++ [D2NB.new_markdown_cell txt]
       end).
Proof.
  unfold D2NB.flush_text.
  destruct (D2M.astext (D2NB.d2m self)) as [b t] eqn:E.
  unfold D2M.astext in E. injection E as <- <-.
  by destruct (strip _).
Qed.

Lemma flush_text_flushed W Ws flag nb :
  D2NB.flush_text
    (D2NB.mkTranslator
       (D2M.mkTranslator [] [] [] W 0 [] [] D2M.fresh_docinfo Ws) flag nb)
  = D2NB.mkTranslator
      (D2M.mkTranslator [] [] [] W 0 [] [] D2M.fresh_docinfo Ws) false nb.
Proof. reflexivity. Qed.

(** X7: flushing twice is flushing once; a code block added right after
    another one gives two code cells next to each other, with no Markdown
    cell between them, whatever the translator held before. *)
Theorem flush_text_idempotent self :
  D2NB.flush_text (D2NB.flush_text self) = D2NB.flush_text self
  /\ forall a b,
       D2NB._notebook (D2NB.add_code_block a (D2NB.add_code_block b self))
       = D2NB._notebook (D2NB.flush_text self)
         ++ [D2NB.new_code_cell b; D2NB.new_code_cell a].
Proof.
  split.
  - rewrite (flush_text_eq self). apply flush_text_flushed.
  - intros a b. unfold D2NB.add_code_block.
    rewrite (flush_text_eq self). unfold D2NB.set_notebook.
    cbn [D2NB.d2m D2NB._in_nbplot D2NB._notebook].
    rewrite flush_text_flushed.
    cbn [D2NB.d2m D2NB._in_nbplot D2NB._notebook].
    by rewrite <- app_assoc.
Qed.
(** Flushing and adding a code block keep the cells in order. *)
Lemma cells_flush_text self :
  Forall cell_in_order (D2NB._notebook self) ->
  Forall cell_in_order (D2NB._notebook (D2NB.flush_text self)).
Proof.
  intros H. rewrite flush_text_eq. simpl.
  destruct (strip_ends (snd (D2M.astext (D2NB.d2m self))))
    as (l & r & _ & _ & _ & Hh & Ht).
  destruct (strip _) as [|c txt]; [done|].
  apply Forall_app. split; [done|].
  apply Forall_cons_2; [|apply Forall_nil_2]. by split_and!.
Qed.

Lemma cells_add_code_block txt self :
  Forall cell_in_order (D2NB._notebook self) ->
  Forall cell_in_order (D2NB._notebook (D2NB.add_code_block txt self)).
Proof.
  intros H. unfold D2NB.add_code_block. simpl.
  apply Forall_app. split; [by apply cells_flush_text|].
  apply Forall_cons_2; [done | apply Forall_nil_2].
Qed.

Lemma cells_inherited (m : D2M.method) self parent node :
  D2NB._notebook (after (D2NB.inherited m self parent node))
  = D2NB._notebook self.
Proof.
  unfold D2NB.inherited. by destruct (m (D2NB.d2m self) parent node).
Qed.

Lemma nb_getattr_Forall (P : D2NB.method -> Prop)
  (own : list (string * D2NB.method)) (base : list (string * D2M.method))
  name (default : D2M.method) :
  Forall (fun nm => P (snd nm)) own ->
  (forall m, P (D2NB.inherited m)) ->
  P (getattr (own ++ map (fun nm => (fst nm, D2NB.inherited (snd nm))) base)
       name (D2NB.inherited default)).
Proof.
  intros Hown Hin. apply getattr_Forall; [|apply Hin].
  apply Forall_app. split; [done|].
  apply Forall_fmap, Forall_forall. intros nm _. apply Hin.
Qed.

Lemma nb_dispatch_keeps_cells self parent node :
  Forall cell_in_order (D2NB._notebook self) ->
  Forall cell_in_order
    (D2NB._notebook (after (dispatch_visit D2NB.Translator_class
                              self parent node)))
  /\ Forall cell_in_order
       (D2NB._notebook (after (dispatch_departure D2NB.Translator_class
                                 self parent node))).
Proof.
  intros H. split.
  - unfold dispatch_visit, D2NB.Translator_class. cbn [visits unknown_visit_of].
    revert self H.
    apply (nb_getattr_Forall
             (fun m => forall self,
                Forall cell_in_order (D2NB._notebook self) ->
                Forall cell_in_order
                  (D2NB._notebook (after (m self parent node))))).
    + repeat (apply Forall_cons_2; [simpl; intros self H|]);
        [..|apply Forall_nil_2].
      * unfold D2NB.visit_doctest_block. repeat case_match; try done.
        by apply cells_add_code_block.
      * unfold D2NB.visit_only. repeat case_match; done.
      * done.
      * done.
      * done.
      * unfold D2NB.visit_literal_block. destruct (negb _).
        -- by rewrite cells_inherited.
        -- by apply cells_add_code_block.
      * by apply cells_add_code_block.
    + intros m self H. by rewrite cells_inherited.
  - unfold dispatch_departure, D2NB.Translator_class.
    cbn [departs unknown_departure_of].
    revert self H.
    apply (nb_getattr_Forall
             (fun m => forall self,
                Forall cell_in_order (D2NB._notebook self) ->
                Forall cell_in_order
                  (D2NB._notebook (after (m self parent node))))).
    + apply Forall_cons_2; [|apply Forall_nil_2]. simpl. by intros self H.
    + intros m self H. by rewrite cells_inherited.
Qed.

(** X8: whatever the document, every Markdown cell of the notebook is
    non-empty and neither starts nor ends with white space; this holds for
    the cells collected during the walk and for the cells the translator
    returns in the end.  (A code cell can be empty.) *)
Theorem markdown_cells_in_order (document : node) :
  Forall cell_in_order
    (D2NB._notebook
       (after (walk_document D2NB.Translator_class (D2NB.init []) document)))
  /\ Forall cell_in_order
       (snd (D2NB.astext
               (after (walk_document D2NB.Translator_class (D2NB.init [])
                         document))))
  /\ match D2NB.translate document with
     | inr cells => Forall cell_in_order cells
     | inl _ => True
     end.
Proof.
  assert (H : Forall cell_in_order
                (D2NB._notebook
                   (after (walk_document D2NB.Translator_class
                             (D2NB.init []) document)))).
  { apply (walkabout_invariant _ _
             (fun v => Forall cell_in_order (D2NB._notebook v))).
    - intros v p n Hv. by apply nb_dispatch_keeps_cells.
    - intros v p n Hv. by apply nb_dispatch_keeps_cells.
    - apply Forall_nil_2. }
  split_and!; [done|by apply cells_flush_text|].
  unfold D2NB.translate.
  destruct (walk_document _ _ document) as [v|e v]; [|done].
  by apply cells_flush_text.
Qed.
End Cells.

(** ** Error and edge behaviour of single methods *)
Section Edges.
Import Spec More.

(** X9: [visit_literal_block] reads the language from the second class
    whenever the class [code] is among the classes, wherever it stands: it
    raises [IndexError], with nothing written, exactly when the classes
    are the single class [code]; otherwise it opens a fence, with the
    second class as its language when [code] is among the classes and
    without a language when it is not. *)
Theorem literal_block_language (self : D2M.Translator) parent node :
  let cls := classes (node_attrs node) in
  (D2M.visit_literal_block self parent node = Raise IndexError self
   <-> cls = [lit "code"])
  /\ (cls <> [lit "code"] ->
      D2M.visit_literal_block self parent node
      = Ok (D2M.add (lit "```"
                     ++ (if bool_decide (lit "code" ∈ cls)
                         then default [] (cls !! 1%nat) else [])
                     ++ eol) self)).
Proof.
  intros cls. unfold D2M.visit_literal_block. fold cls.
  case_bool_decide as Hin.
  - destruct cls as [|c0 [|c1 cls']] eqn:E.
    + by apply elem_of_nil in Hin.
    + apply list_elem_of_singleton in Hin as <-. simpl. by split.
    + simpl. split; [split; intros; discriminate | done].
  - split; [|done]. split; [discriminate|].
    intros E. rewrite E in Hin. exfalso. apply Hin. apply list_elem_of_here.
Qed.

Lemma literal_block_language_witness :
  classes (node_attrs
             (Element "literal_block" []
                (Attributes [lit "code"; lit "python"] None None None None
                   None None None) [Text (lit "x")]))
  <> [lit "code"]
  /\ D2M.visit_literal_block (D2M.init []) None
       (Element "literal_block" []
          (Attributes [lit "code"; lit "python"] None None None None
             None None None) [Text (lit "x")])
     = Ok (D2M.add (lit "```python" ++ eol) (D2M.init [])).
Proof.
  split; [discriminate|].
  exact (proj2 (literal_block_language (D2M.init []) None
                  (Element "literal_block" []
                     (Attributes [lit "code"; lit "python"] None None None
                        None None None None) [Text (lit "x")]))
           ltac:(discriminate)).
Defined.
(** After a code block the departure of an indentation context fails. *)
Lemma finish_level_after_code_block txt (self : D2NB.Translator) parent node :
  D2NB.inherited D2M.depart_list_item (D2NB.add_code_block txt self)
    parent node
  = Raise IndexError (D2NB.add_code_block txt self)
  /\ D2NB.inherited D2M.depart_block_quote (D2NB.add_code_block txt self)
       parent node
     = Raise IndexError (D2NB.add_code_block txt self).
Proof.
  unfold D2NB.add_code_block. rewrite flush_text_eq. by split.
Qed.

(** X10: in the notebook translator a transcript block with text inside a
    list item or a block quote ends the walk with [IndexError]: the code
    cell is added, but adding it resets the engine and with it the stack of
    indentation contexts, so the departure of the enclosing node finds the
    stack empty.  The text of the block is what [astext] gives for it. *)
Theorem code_block_in_context_fails
  (self : D2NB.Translator) (parent : option node) (sep : str)
  (a : attributes) (block : node) :
  class_name block = "doctest_block" ->
  strip (node_astext block) <> [] ->
  (D2M.list_prefixes (D2NB.d2m self) <> [] ->
   exists src v,
     D2NB.parse_doctest (strip (node_astext block)) = Some src
     /\ walkabout (dispatch_visit D2NB.Translator_class)
          (dispatch_departure D2NB.Translator_class) self parent
          (Element "list_item" sep a [block])
        = Raise IndexError v
     /\ last (D2NB._notebook v) = Some (D2NB.new_code_cell src))
  /\ exists src v,
       D2NB.parse_doctest (strip (node_astext block)) = Some src
       /\ walkabout (dispatch_visit D2NB.Translator_class)
            (dispatch_departure D2NB.Translator_class) self parent
            (Element "block_quote" sep a [block])
          = Raise IndexError v
       /\ last (D2NB._notebook v) = Some (D2NB.new_code_cell src).
Proof.
  intros Hclass Htxt.
  pose proof (parse_doctest_lines (strip (node_astext block))) as Hlines.
  destruct (D2NB.parse_doctest (strip (node_astext block))) as [src|] eqn:Hsrc;
    [|done].
  clear Hlines.
  assert (Hchild : forall v p,
            walkabout (dispatch_visit D2NB.Translator_class)
              (dispatch_departure D2NB.Translator_class) v p block
            = Ok (D2NB.add_code_block src v)).
  { intros v p. apply walkabout_skip.
    unfold dispatch_visit. rewrite Hclass.
    change (D2NB.visit_doctest_block v p block
            = Raise SkipNode (D2NB.add_code_block src v)).
    unfold D2NB.visit_doctest_block.
    rewrite Hsrc. destruct (strip (node_astext block)); [done|reflexivity]. }
  split.
  - intros Hp.
    destruct (last (D2M.list_prefixes (D2NB.d2m self))) as [fp|] eqn:E;
      [|by apply last_None in E].
    exists src. eexists. split; [done|].
    rewrite walkabout_Element.
    change (dispatch_visit D2NB.Translator_class self parent
              (Element "list_item" sep a [block]))
      with (D2NB.inherited D2M.visit_list_item self parent
              (Element "list_item" sep a [block])).
    unfold D2NB.inherited at 1, D2M.visit_list_item. rewrite E.
    rewrite Hchild.
    change (dispatch_departure D2NB.Translator_class ?v parent
              (Element "list_item" sep a [block]))
      with (D2NB.inherited D2M.depart_list_item v parent
              (Element "list_item" sep a [block])).
    rewrite (proj1 (finish_level_after_code_block _ _ _ _)).
    split; [reflexivity|].
    unfold D2NB.add_code_block. simpl. by rewrite last_snoc.
  - exists src. eexists. split; [done|].
    rewrite walkabout_Element.
    change (dispatch_visit D2NB.Translator_class self parent
              (Element "block_quote" sep a [block]))
      with (D2NB.inherited D2M.visit_block_quote self parent
              (Element "block_quote" sep a [block])).
    unfold D2NB.inherited at 1, D2M.visit_block_quote.
    rewrite Hchild.
    change (dispatch_departure D2NB.Translator_class ?v parent
              (Element "block_quote" sep a [block]))
      with (D2NB.inherited D2M.depart_block_quote v parent
              (Element "block_quote" sep a [block])).
    rewrite (proj2 (finish_level_after_code_block _ _ _ _)).
    split; [reflexivity|].
    unfold D2NB.add_code_block. simpl. by rewrite last_snoc.
Qed.

Lemma code_block_in_context_witness :
  class_name (Examples.doctest_block Examples.transcript) = "doctest_block"
  /\ strip (node_astext (Examples.doctest_block Examples.transcript)) <> []
  /\ exists src v,
       D2NB.parse_doctest
         (strip (node_astext (Examples.doctest_block Examples.transcript)))
       = Some src
       /\ walkabout (dispatch_visit D2NB.Translator_class)
            (dispatch_departure D2NB.Translator_class) (D2NB.init []) None
            (Element "block_quote" [] no_attributes
               [Examples.doctest_block Examples.transcript])
          = Raise IndexError v
       /\ last (D2NB._notebook v) = Some (D2NB.new_code_cell src).
Proof.
  split; [reflexivity|]. split; [by vm_compute|].
  exact (proj2 (code_block_in_context_fails (D2NB.init []) None []
                  no_attributes (Examples.doctest_block Examples.transcript)
                  eq_refl ltac:(by vm_compute))).
Defined.
End Edges.

(** ** The class decorators *)
Section Decorators.
Import Spec More.
Implicit Types (cls : class D2M.Translator) (names : list string).

Lemma add_pass_thru_cons name names cls :
  D2M.add_pass_thru (name :: names) cls
  = if hasattr (visits cls) name then None
    else if hasattr (departs cls) name then None
    else D2M.add_pass_thru names
           (mkClass ((name, D2M.pass) :: visits cls)
              ((name, D2M.pass) :: departs cls)
              (unknown_visit_of cls) (unknown_departure_of cls)).
Proof.
  unfold D2M.add_pass_thru. simpl.
  destruct (hasattr (visits cls) name); [|destruct (hasattr (departs cls) name)];
    try done; by induction names.
Qed.

(** X11: [add_pass_thru] raises its [ValueError] exactly when a name is
    listed twice or already has a visit or depart method in the class;
    otherwise it puts a pass-through visit method and a pass-through
    depart method for every name in front of the methods of the class and
    leaves everything else as it is.  For the names and the class of the
    source it does not raise. *)
Theorem add_pass_thru_value_error names cls :
  match D2M.add_pass_thru names cls with
  | Some cls' =>
      NoDup names
      /\ Forall (fun n => hasattr (visits cls) n = false
                          /\ hasattr (departs cls) n = false) names
      /\ visits cls' = map (fun n => (n, D2M.pass)) (rev names) ++ visits cls
      /\ departs cls'
         = map (fun n => (n, D2M.pass)) (rev names) ++ departs cls
      /\ unknown_visit_of cls' = unknown_visit_of cls
      /\ unknown_departure_of cls' = unknown_departure_of cls
  | None =>
      ~ NoDup names
      \/ Exists (fun n => hasattr (visits cls) n = true
                          \/ hasattr (departs cls) n = true) names
  end
  /\ is_Some D2M.decorated.
Proof.
  split; [|by eexists].
  revert cls. induction names as [|name names IH]; intros cls.
  - simpl. split_and!; try done. apply NoDup_nil_2.
  - rewrite add_pass_thru_cons.
    destruct (hasattr (visits cls) name) eqn:Hv.
    { right. apply Exists_cons_hd. by left. }
    destruct (hasattr (departs cls) name) eqn:Hd.
    { right. apply Exists_cons_hd. by right. }
    specialize (IH (mkClass ((name, D2M.pass) :: visits cls)
                      ((name, D2M.pass) :: departs cls)
                      (unknown_visit_of cls) (unknown_departure_of cls))).
    destruct (D2M.add_pass_thru names _) as [cls'|].
    + destruct IH as (Hnd & Hall & Hvs & Hds & Hu1 & Hu2). simpl in *.
      split_and!; try done.
      * apply NoDup_cons_2; [|done]. intros Hin.
        apply (proj1 (Forall_forall _ _) Hall) in Hin as [Hin _].
        unfold hasattr in Hin. simpl in Hin.
        by rewrite String.eqb_refl in Hin.
      * apply Forall_cons_2; [done|].
        eapply Forall_impl; [exact Hall|]. intros n [H1 H2].
        unfold hasattr in *. simpl in *.
        apply orb_false_iff in H1 as [_ H1].
        apply orb_false_iff in H2 as [_ H2]. done.
      * rewrite Hvs, map_app. simpl. by rewrite <- app_assoc.
      * rewrite Hds, map_app. simpl. by rewrite <- app_assoc.
    + destruct IH as [Hnd|Hex].
      * left. intros Hnd'. apply Hnd. by apply NoDup_cons_1_2 in Hnd'.
      * apply Exists_exists in Hex as (n & Hin & Hn).
        destruct (decide (n = name)) as [->|Hne].
        -- left. intros Hnd. by apply NoDup_cons_1_1 in Hnd.
        -- right. apply Exists_cons_tl, Exists_exists. exists n.
           split; [done|]. unfold hasattr in *. simpl in Hn.
           assert (String.eqb name n = false) as Heq
             by by apply String.eqb_neq.
           rewrite Heq in Hn. done.
Qed.
End Decorators.

(** ** Inline markup *)
Section Inline.
Import Spec More.
Implicit Types (self v : D2M.Translator) (texts : list str).

Lemma current_adds texts : forall v, current (adds texts v) = current v ++ texts.
Proof.
  induction texts as [|t ts IH]; intros v; simpl.
  - by rewrite app_nil_r.
  - rewrite IH, current_add. by rewrite <- app_assoc.
Qed.

(** The walk of a text leaf writes its text. *)
Lemma walkabout_text_leaf v parent data :
  walkabout (dispatch_visit D2M.Translator_class)
    (dispatch_departure D2M.Translator_class) v parent (Text data)
  = Ok (D2M.add (unescape data) v).
Proof. reflexivity. Qed.

(** The loop over children that are all text leaves. *)
Lemma walk_text_children (p : option node) texts : forall v,
  (fix walk (v : D2M.Translator) (cs : list node) {struct cs}
     : result D2M.Translator :=
     match cs with
     | [] => Ok v
     | c :: cs' =>
         match walkabout (dispatch_visit D2M.Translator_class)
                 (dispatch_departure D2M.Translator_class) v p c with
         | Ok v' => walk v' cs'
         | Raise e v' => Raise e v'
         end
     end) v (map Text texts)
  = Ok (adds (map unescape texts) v).
Proof.
  induction texts as [|t ts IH]; intros v; [done|].
  cbn [map]. rewrite walkabout_text_leaf. apply IH.
Qed.

(** X12: for every entry [key : (prefix, suffix)] of
    [PREF_SUFF_ELEMENTS], the walk of an element of class [key] whose
    children are text leaves writes the prefix, the texts of the leaves
    (as [astext] gives them: unescaped) in order and the suffix to the
    current output, one fragment each, and nothing else. *)
Theorem inline_markup_wraps key prefix suffix self parent sep a texts :
  (key, (prefix, suffix)) ∈ D2M.PREF_SUFF_ELEMENTS ->
  walkabout (dispatch_visit D2M.Translator_class)
    (dispatch_departure D2M.Translator_class) self parent
    (Element key sep a (map Text texts))
  = Ok (D2M.add suffix (adds (map unescape texts) (D2M.add prefix self)))
  /\ current
       (D2M.add suffix (adds (map unescape texts) (D2M.add prefix self)))
     = current self ++ [prefix] ++ map node_astext (map Text texts)
       ++ [suffix].
Proof.
  intros Hin. split.
  - assert (Hv : dispatch_visit D2M.Translator_class self parent
                   (Element key sep a (map Text texts))
                 = Ok (D2M.add prefix self)
                 /\ forall v, dispatch_departure D2M.Translator_class v parent
                                (Element key sep a (map Text texts))
                              = Ok (D2M.add suffix v)).
    { unfold D2M.PREF_SUFF_ELEMENTS in Hin.
      repeat (apply elem_of_cons in Hin as [Hin|Hin];
              [injection Hin as -> -> ->; by split|]).
      by apply elem_of_nil in Hin. }
    destruct Hv as [Hv Hd].
    rewrite walkabout_Element, Hv, walk_text_children. apply Hd.
  - rewrite current_add, current_adds, current_add.
    rewrite <- !app_assoc. do 2 f_equal. by rewrite map_map.
Qed.

Lemma inline_markup_witness :
  ("strong", (lit "**", lit "**")) ∈ D2M.PREF_SUFF_ELEMENTS
  /\ walkabout (dispatch_visit D2M.Translator_class)
       (dispatch_departure D2M.Translator_class) (D2M.init []) None
       (Element "strong" [] no_attributes (map Text [lit "very"]))
     = Ok (D2M.add (lit "**")
             (adds (map unescape [lit "very"])
                (D2M.add (lit "**") (D2M.init [])))).
Proof.
  assert (H : ("strong", (lit "**", lit "**")) ∈ D2M.PREF_SUFF_ELEMENTS).
  { unfold D2M.PREF_SUFF_ELEMENTS. do 2 apply list_elem_of_further.
    apply list_elem_of_here. }
  split; [exact H|].
  exact (proj1 (inline_markup_wraps "strong" (lit "**") (lit "**")
                  (D2M.init []) None [] no_attributes [lit "very"] H)).
Defined.
End Inline.

(** ** Texts without a prompt *)
Section NoPrompt.
Import Re Spec More.
Implicit Types (s cur l : str) (c : char).

Lemma in_expandtabs c s : forall col,
  In c (expandtabs_from col s) -> c = SP \/ In c s.
Proof.
  induction s as [|d s IH]; intros col H; simpl in H; [done|].
  destruct (d =? TAB)%N.
  - apply in_app_iff in H as [H|H].
    + left. by apply repeat_spec in H.
    + apply IH in H as [H|H]; [by left | right; by right].
  - destruct ((d =? LF)%N || (d =? CR)%N); destruct H as [<-|H];
      try (right; by left); apply IH in H as [H|H];
      (by left) || (right; by right).
Qed.

Lemma in_split_lf c l s : forall cur,
  In l (split_lf_from cur s) -> In c l -> In c cur \/ In c s.
Proof.
  induction s as [|d s IH]; intros cur Hl Hc; simpl in Hl.
  - destruct Hl as [<-|[]]. left. by apply in_rev.
  - destruct (d =? LF)%N.
    + destruct Hl as [<-|Hl].
      * left. by apply in_rev.
      * destruct (IH [] Hl Hc) as [[]|H]. right. by right.
    + destruct (IH (d :: cur) Hl Hc) as [[<-|H]|H].
      * right. by left.
      * by left.
      * right. by right.
Qed.

Lemma in_join c sep parts :
  In c (join sep parts) -> In c sep \/ exists p, In p parts /\ In c p.
Proof.
  induction parts as [|p ps IH]; [done|].
  destruct ps as [|q ps].
  - simpl. intros H. right. exists p. by split; [left|].
  - change (join sep (p :: q :: ps)) with (p ++ sep ++ join sep (q :: ps)).
    intros [H|[H|H]%in_app_iff]%in_app_iff.
    + right. exists p. by split; [left|].
    + by left.
    + destruct (IH H) as [H'|(p' & Hp' & Hc)]; [by left|].
      right. exists p'. by split; [right|].
Qed.

Lemma in_dedent c s : In c (dedent s) -> c = LF \/ In c s.
Proof.
  unfold dedent.
  set (lines := map (fun l : str => if forallb is_sp_tab l then [] else l)
                (split_lf s)).
  assert (Hlines : forall l, In l lines -> In c l -> In c s).
  { intros l Hl Hc. subst lines.
    apply in_map_iff in Hl as (l0 & <- & Hl0).
    destruct (forallb is_sp_tab l0); [done|].
    by destruct (in_split_lf c l0 s [] Hl0 Hc). }
  assert (Hjoin : forall g : str -> str,
            (forall l, In c (g l) -> In c l) ->
            In c (join eol (map g lines)) -> c = LF \/ In c s).
  { intros g Hg [[<-|[]]|(p & Hp & Hc)]%in_join; [by left|].
    apply in_map_iff in Hp as (l & <- & Hl). right.
    apply (Hlines l Hl). by apply Hg. }
  destruct (fold_left margin_step _ None) as [[|d m]|].
  - intros H. apply (Hjoin (fun l => l)); [done|]. by rewrite map_id.
  - apply Hjoin. intros l. unfold remove_margin.
    destruct (startswith l (d :: m)); [|done].
    rewrite <- !list_elem_of_In. apply subseteq_drop.
  - intros H. apply (Hjoin (fun l => l)); [done|]. by rewrite map_id.
Qed.

(** A match starts at or after the place the search started from. *)
Lemma match_at_rest r st m :
  match_at r st = Some m -> exists pre, rest st = pre ++ rest m.
Proof.
  unfold match_at. intros H.
  apply rmatch_sound in H as (m' & Hm & [= ->]).
  by apply matches_rest in Hm.
Qed.

Lemma scan_matches_within (r : regex) (n : nat) :
  forall st m, m ∈ scan n r st ->
    exists st0 pre, match_at r st0 = Some m /\ rest st = pre ++ rest st0.
Proof.
  induction n as [|n IH]; intros st m Hm; simpl in Hm.
  - by apply elem_of_nil in Hm.
  - assert (Hstep : m ∈ match rest st with
                         | [] => []
                         | c :: s' => scan n r (advance c s' st)
                         end ->
                    exists st0 pre,
                      match_at r st0 = Some m /\ rest st = pre ++ rest st0).
    { destruct (rest st) as [|c s'] eqn:E; [by intros ?%elem_of_nil|].
      intros (st0 & pre & H0 & Hpre)%IH. exists st0, (c :: pre).
      split; [done|]. simpl in Hpre. by rewrite Hpre. }
    destruct (match_at r st) as [m0|] eqn:E; [|by apply Hstep].
    destruct (length (rest m0) <? length (rest st))%nat.
    + apply elem_of_cons in Hm as [->|Hm].
      * exists st, []. by split.
      * apply IH in Hm as (st0 & pre & H0 & Hpre).
        apply match_at_rest in E as [pre0 E].
        exists st0, (pre0 ++ pre). split; [done|].
        by rewrite E, Hpre, app_assoc.
    + apply elem_of_cons in Hm as [->|Hm]; [|by apply Hstep].
      exists st, []. by split.
Qed.

(** A match of [_EXAMPLE_RE] starts with blanks and the prompt marker. *)
Lemma example_match_prompt (st0 m : cursor) :
  matches D2NB._EXAMPLE_RE st0 m ->
  exists n tail, rest st0 = repeat SP n ++ lit ">>>" ++ tail.
Proof.
  intros H. unfold D2NB._EXAMPLE_RE, D2NB.PS1_line in H.
  set (prompt := lit ">>>") in *.
  apply matches_Seq_inv in H as (st1 & Hsrc & _).
  apply matches_Group_inv in Hsrc as (stA & Hsrc & _).
  apply matches_Seq_inv in Hsrc as (stB & Hps1 & _).
  apply matches_Seq_inv in Hps1 as (st0' & Hbol & Hps1).
  inversion Hbol; subst st0'. clear Hbol.
  apply matches_Seq_inv in Hps1 as (stI & Hind & Hps1).
  apply matches_Group_inv in Hind as (stS & Hsp & ->).
  apply matches_Seq_inv in Hps1 as (stC & Hlit & _).
  destruct (matches_spaces _ _ Hsp) as [n En].
  pose proof (matches_Lits _ _ _ Hlit) as El. simpl in El.
  exists n, (rest stC). by rewrite En, El.
Qed.

(** X13: a text without the character [>] holds no example: the source
    [parse_doctest] extracts from it is empty. *)
Theorem parse_doctest_without_prompt (doctest_txt : str) :
  62%N ∉ doctest_txt ->
  D2NB.parse_doctest doctest_txt = Some [].
Proof.
  intros Hno. rewrite parse_doctest_lines.
  destruct (finditer D2NB._EXAMPLE_RE (dedent (expandtabs doctest_txt)))
    as [|m ms] eqn:E; [done|].
  exfalso. apply Hno.
  assert (Hm : m ∈ finditer D2NB._EXAMPLE_RE
                     (dedent (expandtabs doctest_txt))).
  { rewrite E. apply list_elem_of_here. }
  apply scan_matches_within in Hm as (st0 & pre & Hm & Hpre).
  simpl in Hpre.
  unfold match_at in Hm. apply rmatch_sound in Hm as (m' & Hm & _).
  apply example_match_prompt in Hm as (n & tail & Hrest). simpl in Hrest.
  assert (Hin : In 62%N (dedent (expandtabs doctest_txt))).
  { rewrite Hpre, Hrest. apply in_app_iff. right.
    apply in_app_iff. right. by left. }
  apply in_dedent in Hin as [Hin|Hin]; [done|].
  apply in_expandtabs in Hin as [Hin|Hin]; [done|].
  by apply list_elem_of_In.
Qed.

Lemma parse_doctest_without_prompt_witness :
  (62%N ∉ lit "hello") /\ D2NB.parse_doctest (lit "hello") = Some [].
Proof.
  assert (H : 62%N ∉ lit "hello").
  { intros H. apply list_elem_of_In in H. simpl in H.
    repeat (destruct H as [H|H]; [discriminate|]). done. }
  split; [exact H|]. exact (parse_doctest_without_prompt (lit "hello") H).
Defined.
End NoPrompt.

(** ** Rendering whole documents *)
Section Documents.
Import Spec More.
Implicit Types (v self : D2M.Translator) (t : str) (texts : list str).

#[local] Abbreviation dv := (dispatch_visit D2M.Translator_class).
#[local] Abbreviation dd := (dispatch_departure D2M.Translator_class).

(** The loop over children whose walks are known, for the translators that
    satisfy an invariant. *)
Lemma walk_children_known {A} (I : D2M.Translator -> Prop) (g : A -> node)
  (f : A -> D2M.Translator -> D2M.Translator) (p : option node)
  (xs : list A) :
  (forall x v, x ∈ xs -> I v ->
     walkabout dv dd v p (g x) = Ok (f x v) /\ I (f x v)) ->
  forall v, I v ->
    (fix walk (v : D2M.Translator) (cs : list node) {struct cs}
       : result D2M.Translator :=
       match cs with
       | [] => Ok v
       | c :: cs' =>
           match walkabout dv dd v p c with
           | Ok v' => walk v' cs'
           | Raise e v' => Raise e v'
           end
       end) v (map g xs)
    = Ok (fold_left (fun v x => f x v) xs v).
Proof.
  induction xs as [|x xs IH]; intros H v Hv; [done|].
  cbn [map fold_left].
  destruct (H x v (list_elem_of_here _ _) Hv) as [-> Hv'].
  apply IH; [|done]. intros y w Hy. apply H. by apply list_elem_of_further.
Qed.

(** The walk of a paragraph that holds a text which, unescaped, is not
    empty and does not end in a line feed: the text, the line break that
    ends its last line, and a blank line. *)
Lemma walk_paragraph v parent t :
  unescape t <> [] -> last (unescape t) <> Some LF ->
  walkabout dv dd v parent (paragraph_of t)
  = Ok (adds [unescape t; eol; eol] v).
Proof.
  intros Hne Hlast. unfold paragraph_of. rewrite walkabout_Element.
  change (dv v parent (Element "paragraph" [] no_attributes [Text t]))
    with (Ok v : result D2M.Translator).
  cbv beta iota. rewrite walkabout_text_leaf. cbv beta iota.
  change (dd ?w parent (Element "paragraph" [] no_attributes [Text t]))
    with (D2M.depart_paragraph w parent
            (Element "paragraph" [] no_attributes [Text t])).
  unfold D2M.depart_paragraph. simpl adds.
  pose proof (ensure_eol_cases (D2M.add (unescape t) v)) as H.
  rewrite current_add, last_snoc in H.
  destruct (last (unescape t)) as [c|] eqn:E; [|by apply last_None in E].
  destruct (N.eqb_spec c LF) as [->|_]; [done|]. by rewrite H.
Qed.

(** Without an open indentation context, [adds] appends to [body]. *)
Lemma adds_body fragments : forall v,
  D2M.indent_levels v = [] ->
  adds fragments v = D2M.set_body (D2M.body v ++ fragments) v.
Proof.
  induction fragments as [|s fs IH]; intros v Hv; simpl.
  - rewrite app_nil_r. by destruct v.
  - rewrite IH.
    + unfold D2M.add, D2M.add_to. rewrite Hv. simpl.
      by rewrite <- app_assoc.
    + unfold D2M.add, D2M.add_to. by rewrite Hv.
Qed.

Lemma adds_app fs1 fs2 v : adds (fs1 ++ fs2) v = adds fs2 (adds fs1 v).
Proof. unfold adds. apply fold_left_app. Qed.

Lemma join_snoc_sep (sep : str) texts t :
  join sep (texts ++ [t]) = concat (map (fun x => x ++ sep) texts) ++ t.
Proof.
  induction texts as [|x xs IH]; [done|].
  change ((x :: xs) ++ [t]) with (x :: (xs ++ [t])).
  rewrite join_cons by by destruct xs.
  rewrite IH. simpl. by rewrite <- !app_assoc.
Qed.

(** X14: a document of paragraphs, each holding one text leaf whose text
    (as [astext] gives it: unescaped) is not empty and does not end in a
    line feed, renders as these texts with one blank line between them and
    a single line feed at the end. *)
Theorem paragraphs_rendering (sep : str) (a : attributes) texts :
  texts <> [] ->
  Forall (fun t => node_astext (Text t) <> []
                   /\ last (node_astext (Text t)) <> Some LF) texts ->
  D2M.translate (Element "document" sep a (map paragraph_of texts))
  = inr (join (eol ++ eol) (map (fun t => node_astext (Text t)) texts)
         ++ eol).
Proof.
  intros Hne Hall. unfold D2M.translate, walk_document.
  change (map (fun t => node_astext (Text t)) texts)
    with (map unescape texts).
  rewrite walkabout_Element.
  change (dv (D2M.init []) None
            (Element "document" sep a (map paragraph_of texts)))
    with (Ok (D2M.init []) : result D2M.Translator).
  cbv beta iota.
  rewrite (walk_children_known (fun _ => True) paragraph_of
             (fun t v => adds [unescape t; eol; eol] v)); [| |done].
  2:{ intros t v Ht _. apply (proj1 (Forall_forall _ _) Hall) in Ht as [H1 H2].
      split; [|done]. by apply walk_paragraph. }
  change (dd ?w None (Element "document" sep a (map paragraph_of texts)))
    with (Ok w : result D2M.Translator).
  f_equal.
  assert (Hfold : forall v,
            fold_left (fun v t => adds [unescape t; eol; eol] v) texts v
            = adds (concat (map (fun t => [t; eol; eol])
                              (map unescape texts))) v).
  { clear. induction texts as [|t ts IH]; intros v; [done|].
    cbn [fold_left map concat]. rewrite IH.
    by rewrite (adds_app [unescape t; eol; eol]). }
  rewrite Hfold, adds_body by done.
  assert (Hne' : map unescape texts <> []) by by destruct texts.
  clear Hne Hall Hfold. revert Hne'.
  generalize (map unescape texts). clear texts. intros texts Hne.
  destruct texts as [|t0 ts _] using rev_ind; [done|].
  rewrite map_app, concat_app, join_snoc_sep. simpl.
  unfold D2M.astext, D2M.drop_trailing_eols, join0. simpl.
  assert (Hdrop : D2M.drop_eol
                    (concat (map (fun t => [t; eol; eol]) ts)
                     ++ [t0; eol; eol])
                  = concat (map (fun t => [t; eol; eol]) ts) ++ [t0; eol]).
  { unfold D2M.drop_eol.
    change [t0; eol; eol] with ([t0; eol] ++ [eol]).
    by rewrite app_assoc, last_snoc, removelast_last. }
  rewrite Hdrop. change (D2M.drop_eol []) with (@nil str).
  rewrite app_nil_r, concat_app. simpl. rewrite ?app_nil_r.
  change [LF] with eol. rewrite <- app_assoc. f_equal.
  clear. induction ts as [|t ts IH]; [done|].
  simpl. rewrite IH. by rewrite <- !app_assoc.
Qed.

Lemma paragraphs_rendering_witness :
  [lit "Intro."; [NUL] ++ lit " Out" ++ [NUL] ++ lit "ro."] <> []
  /\ Forall (fun t => node_astext (Text t) <> []
                      /\ last (node_astext (Text t)) <> Some LF)
       [lit "Intro."; [NUL] ++ lit " Out" ++ [NUL] ++ lit "ro."]
  /\ D2M.translate
       (Element "document" [] no_attributes
          (map paragraph_of
             [lit "Intro."; [NUL] ++ lit " Out" ++ [NUL] ++ lit "ro."]))
     = inr (lit "Intro." ++ eol ++ eol ++ lit "Outro." ++ eol).
Proof.
  assert (H : Forall (fun t => node_astext (Text t) <> []
                               /\ last (node_astext (Text t)) <> Some LF)
                [lit "Intro."; [NUL] ++ lit " Out" ++ [NUL] ++ lit "ro."]).
  { repeat (apply Forall_cons_2; [split; by vm_compute|]).
    apply Forall_nil_2. }
  split; [discriminate|]. split; [exact H|].
  exact (paragraphs_rendering [] no_attributes
           [lit "Intro."; [NUL] ++ lit " Out" ++ [NUL] ++ lit "ro."]
           ltac:(discriminate) H).
Defined.

(** Leaving a level right after entering it and adding fragments that
    materialise as a text appends that text to the enclosing output. *)
Lemma finish_level_of_text self prefix first_prefix section fragments text :
  materialize prefix (default prefix first_prefix) fragments = Some text ->
  D2M.finish_level
    (adds fragments (D2M.start_level prefix first_prefix section self))
  = Ok (D2M.add_to section text self).
Proof.
  intros Hm.
  rewrite (adds_innermost fragments _ (D2M.indent_levels self)
             (D2M.IndentLevel_init
                (match D2M.indent_levels self with
                 | [] => D2M.BaseList section
                 | _ => D2M.BaseContent (length (D2M.indent_levels self) - 1)
                 end) prefix first_prefix)) by done.
  unfold D2M.finish_level. simpl. rewrite last_snoc, removelast_last.
  rewrite IndentLevel_write_materialize. simpl.
  replace (match first_prefix with Some fp => fp | None => prefix end)
    with (default prefix first_prefix) by by destruct first_prefix.
  rewrite Hm. f_equal.
  rewrite <- (base_append_fresh_level section text self). by destruct self.
Qed.

Lemma one_line_last t : one_line t = true -> last t <> Some LF.
Proof.
  intros Ht Hl. apply last_Some in Hl as [t' ->].
  rewrite one_line_app in Ht. apply andb_true_iff in Ht as [_ Ht]. done.
Qed.

(** One line of text in a level: the first prefix, the line, and the blank
    line that follows it. *)
Lemma materialize_one_line prefix first_prefix t :
  t <> [] -> one_line t = true ->
  materialize prefix first_prefix [t; eol; eol]
  = Some (first_prefix ++ t ++ eol ++ eol).
Proof.
  intros Hne Ht. unfold materialize.
  replace (concat [t; eol; eol]) with (concat [t ++ [LF]; [LF]])
    by (simpl; by rewrite <- app_assoc).
  rewrite splitlines_lines_in_order.
  - simpl. by rewrite <- app_assoc.
  - cbn [lines_in_order]. by rewrite terminated_snoc, Ht.
Qed.

(** The walk of an item that holds one line of text, in a list whose
    marker is [marker]. *)
Lemma walk_list_item v parent t marker :
  last (D2M.list_prefixes v) = Some marker ->
  unescape t <> [] -> one_line (unescape t) = true ->
  walkabout dv dd v parent (item_of t)
  = Ok (D2M.add (marker ++ unescape t ++ eol ++ eol) v).
Proof.
  intros Hm Hne Ht. unfold item_of. rewrite walkabout_Element.
  change (dv v parent
            (Element "list_item" (eol ++ eol) no_attributes [paragraph_of t]))
    with (D2M.visit_list_item v parent
            (Element "list_item" (eol ++ eol) no_attributes [paragraph_of t])).
  unfold D2M.visit_list_item. rewrite Hm. cbv beta iota.
  rewrite walk_paragraph by auto using one_line_last. cbv beta iota.
  change (dd ?w parent
            (Element "list_item" (eol ++ eol) no_attributes [paragraph_of t]))
    with (D2M.finish_level w).
  by rewrite (finish_level_of_text _ _ _ _ _
                (marker ++ unescape t ++ eol ++ eol))
    by by apply materialize_one_line.
Qed.

Lemma add_list_prefixes s v :
  D2M.list_prefixes (D2M.add s v) = D2M.list_prefixes v.
Proof. unfold D2M.add, D2M.add_to. by case_match. Qed.

(** The walk of a list of one-line items: one fragment for each item, and
    the markers of the enclosing lists as they were. *)
Lemma walk_list_of v parent ordered texts :
  Forall (fun t => unescape t <> [] /\ one_line (unescape t) = true) texts ->
  walkabout dv dd v parent (list_of ordered texts)
  = Ok (D2M.set_list_prefixes (D2M.list_prefixes v)
          (adds (map (fun t => list_marker ordered ++ unescape t ++ eol ++ eol)
                   texts)
             (D2M.set_list_prefixes
                (D2M.list_prefixes v ++ [list_marker ordered]) v))).
Proof.
  intros Hall. unfold list_of. rewrite walkabout_Element.
  set (v1 := D2M.set_list_prefixes
               (D2M.list_prefixes v ++ [list_marker ordered]) v).
  assert (Hdv : forall tag,
            tag = (if ordered then "enumerated_list" else "bullet_list") ->
            dv v parent (Element tag [] no_attributes (map item_of texts))
            = Ok v1).
  { intros tag ->. by destruct ordered. }
  rewrite Hdv by done. cbv beta iota.
  rewrite (walk_children_known
             (fun w => last (D2M.list_prefixes w) = Some (list_marker ordered))
             item_of
             (fun t w =>
                D2M.add (list_marker ordered ++ unescape t ++ eol ++ eol) w)).
  - assert (Hfold : forall w,
              fold_left
                (fun w t =>
                   D2M.add (list_marker ordered ++ unescape t ++ eol ++ eol) w)
                texts w
              = adds (map (fun t =>
                             list_marker ordered ++ unescape t ++ eol ++ eol)
                        texts) w).
    { clear. induction texts as [|t ts IH]; intros w; [done|]. apply IH. }
    rewrite Hfold.
    assert (Hlp : forall fs w,
              D2M.list_prefixes (adds fs w) = D2M.list_prefixes w).
    { clear. induction fs as [|s fs IH]; intros w; [done|].
      simpl. change (fold_left _ fs ?x) with (adds fs x).
      by rewrite IH, add_list_prefixes. }
    assert (Hdd : forall tag w,
              tag = (if ordered then "enumerated_list" else "bullet_list") ->
              dd w parent (Element tag [] no_attributes (map item_of texts))
              = D2M.depart_enumerated_list w parent
                  (Element tag [] no_attributes (map item_of texts))).
    { intros tag w ->. by destruct ordered. }
    rewrite Hdd by done. unfold D2M.depart_enumerated_list.
    rewrite Hlp. subst v1. cbn [D2M.list_prefixes D2M.set_list_prefixes].
    rewrite removelast_last.
    by destruct (D2M.list_prefixes v).
  - intros t w Ht Hw.
    apply (proj1 (Forall_forall _ _) Hall) in Ht as [H1 H2].
    split; [by apply walk_list_item|]. by rewrite add_list_prefixes.
  - subst v1. destruct v. simpl. by rewrite last_snoc.
Qed.

Lemma drop_eol_other (L : list str) :
  Forall (fun f => f <> eol) L -> D2M.drop_eol L = L.
Proof.
  intros H. unfold D2M.drop_eol. destruct (last L) as [f|] eqn:E; [|done].
  apply last_Some in E as [L' ->].
  apply Forall_app in H as [_ Hf%Forall_inv].
  unfold str_eqb. by rewrite bool_decide_eq_false_2.
Qed.

(** X15: a document that holds one list of items, each a paragraph with
    one text leaf whose text (as [astext] gives it: unescaped) is one line
    that is not empty, renders every item as the marker of the list ([* ],
    or [1. ] for every item of a numbered list), the line, and one blank
    line. *)
Theorem list_of_lines_rendering (sep : str) (a : attributes)
  (ordered : bool) texts :
  Forall (fun t => node_astext (Text t) <> []
                   /\ one_line (node_astext (Text t)) = true) texts ->
  D2M.translate (Element "document" sep a [list_of ordered texts])
  = inr (concat (map (fun t => list_marker ordered ++ node_astext (Text t)
                               ++ eol ++ eol) texts)).
Proof.
  intros Hall. unfold D2M.translate, walk_document.
  change (fun t => list_marker ordered ++ node_astext (Text t) ++ eol ++ eol)
    with (fun t => list_marker ordered ++ unescape t ++ eol ++ eol).
  rewrite walkabout_Element.
  change (dv (D2M.init []) None
            (Element "document" sep a [list_of ordered texts]))
    with (Ok (D2M.init []) : result D2M.Translator).
  cbv beta iota. rewrite walk_list_of by done. cbv beta iota.
  change (dd ?w None (Element "document" sep a [list_of ordered texts]))
    with (Ok w : result D2M.Translator).
  f_equal. rewrite adds_body by done.
  unfold D2M.astext, D2M.drop_trailing_eols, join0. simpl.
  rewrite drop_eol_other.
  - change (D2M.drop_eol []) with (@nil str). by rewrite app_nil_r.
  - apply Forall_fmap. eapply Forall_impl; [exact Hall|].
    intros t [H1 _] Heq. change (node_astext (Text t)) with (unescape t) in H1.
    apply (f_equal length) in Heq. rewrite !length_app in Heq.
    destruct ordered, (unescape t); simpl in Heq; done || lia.
Qed.

Lemma list_of_lines_witness :
  Forall (fun t => node_astext (Text t) <> []
                   /\ one_line (node_astext (Text t)) = true)
    [lit "tea"; lit "milk"]
  /\ D2M.translate
       (Element "document" [] no_attributes
          [list_of true [lit "tea"; lit "milk"]])
     = inr (lit "1. tea" ++ eol ++ eol ++ lit "1. milk" ++ eol ++ eol).
Proof.
  assert (H : Forall (fun t => node_astext (Text t) <> []
                               /\ one_line (node_astext (Text t)) = true)
                [lit "tea"; lit "milk"]).
  { repeat (apply Forall_cons_2; [split; by vm_compute|]).
    apply Forall_nil_2. }
  split; [exact H|].
  exact (list_of_lines_rendering [] no_attributes true
           [lit "tea"; lit "milk"] H).
Defined.
End Documents.

(** ** The notebook translator on documents without code *)
Section Inherited.
Import Spec More.
Implicit Types (self : D2NB.Translator) (b : D2M.Translator).

#[local] Abbreviation mdv := (dispatch_visit D2M.Translator_class).
#[local] Abbreviation mdd := (dispatch_departure D2M.Translator_class).
#[local] Abbreviation nbv := (dispatch_visit D2NB.Translator_class).
#[local] Abbreviation nbd := (dispatch_departure D2NB.Translator_class).

Lemma getattr_inherited (tbl : list (string * D2M.method)) name default :
  getattr (map (fun nm => (fst nm, D2NB.inherited (snd nm))) tbl) name
    (D2NB.inherited default)
  = D2NB.inherited (getattr tbl name default).
Proof.
  induction tbl as [|[n m] tbl IH]; [done|]. cbn [map getattr fst snd].
  by destruct (String.eqb n name).
Qed.

Lemma lift_set_d2m self b r : lift (D2NB.set_d2m b self) r = lift self r.
Proof. by destruct r. Qed.

(** Outside a rendered plot, a node that is of none of the notebook's own
    classes is visited by the inherited method of its class. *)
Lemma nb_visit_inherited self parent node :
  D2NB._in_nbplot self = false ->
  existsb (fun x => String.eqb x (class_name node)) notebook_names = false ->
  nbv self parent node = lift self (mdv (D2NB.d2m self) parent node).
Proof.
  intros Hflag Hname. unfold dispatch_visit.
  generalize dependent (class_name node). intros name Hname.
  cbn [existsb notebook_names] in Hname.
  repeat (apply orb_false_iff in Hname as [? Hname]).
  unfold D2NB.Translator_class at 1 2.
  cbn [visits unknown_visit_of app getattr].
  repeat match goal with H : String.eqb _ name = false |- _ =>
    rewrite H; clear H end.
  destruct (String.eqb "literal_block" name) eqn:E.
  - apply String.eqb_eq in E as <-.
    unfold D2NB.visit_literal_block. rewrite Hflag. reflexivity.
  - rewrite getattr_inherited. reflexivity.
Qed.

Lemma nb_departure_inherited self parent node :
  existsb (fun x => String.eqb x (class_name node)) notebook_names = false ->
  nbd self parent node = lift self (mdd (D2NB.d2m self) parent node).
Proof.
  intros Hname. unfold dispatch_departure.
  generalize dependent (class_name node). intros name Hname.
  cbn [existsb notebook_names] in Hname.
  repeat (apply orb_false_iff in Hname as [? Hname]).
  unfold D2NB.Translator_class at 1 2.
  cbn [departs unknown_departure_of app getattr].
  repeat match goal with H : String.eqb "nbplot_rendered" name = false |- _ =>
    rewrite H; clear H end.
  rewrite getattr_inherited. reflexivity.
Qed.

Lemma walk_children_inherited (p : option node) (children : list node) :
  Forall (fun c => markdown_only c = true ->
            forall self parent, D2NB._in_nbplot self = false ->
              walkabout nbv nbd self parent c
              = lift self (walkabout mdv mdd (D2NB.d2m self) parent c))
    children ->
  forallb markdown_only children = true ->
  forall self, D2NB._in_nbplot self = false ->
    (fix walk (v : D2NB.Translator) (cs : list node) {struct cs}
       : result D2NB.Translator :=
       match cs with
       | [] => Ok v
       | c :: cs' =>
           match walkabout nbv nbd v p c with
           | Ok v' => walk v' cs'
           | Raise e v' => Raise e v'
           end
       end) self children
    = lift self
        ((fix walk (v : D2M.Translator) (cs : list node) {struct cs}
            : result D2M.Translator :=
            match cs with
            | [] => Ok v
            | c :: cs' =>
                match walkabout mdv mdd v p c with
                | Ok v' => walk v' cs'
                | Raise e v' => Raise e v'
                end
            end) (D2NB.d2m self) children).
Proof.
  induction 1 as [|c cs Hc _ IH]; intros Hall self Hflag.
  - by destruct self.
  - cbn [forallb] in Hall. apply andb_true_iff in Hall as [Hc' Hcs].
    rewrite (Hc Hc' self p Hflag).
    destruct (walkabout mdv mdd (D2NB.d2m self) p c) as [b|e b]; [|done].
    cbn [lift]. rewrite (IH Hcs (D2NB.set_d2m b self)) by done.
    apply lift_set_d2m.
Qed.

(** On a tree without the notebook's own node classes, and outside a
    rendered plot, the notebook translator walks as the Markdown
    translator it extends. *)
Lemma walk_markdown_only (n : node) :
  markdown_only n = true ->
  forall self parent, D2NB._in_nbplot self = false ->
    walkabout nbv nbd self parent n
    = lift self (walkabout mdv mdd (D2NB.d2m self) parent n).
Proof.
  induction n as [data|tag sep a children IH] using node_children_ind;
    intros Hn self parent Hflag.
  - reflexivity.
  - cbn [markdown_only] in Hn. apply andb_true_iff in Hn as [Htag Hcs].
    apply negb_true_iff in Htag.
    rewrite !walkabout_Element.
    rewrite nb_visit_inherited by done.
    destruct (mdv (D2NB.d2m self) parent (Element tag sep a children))
      as [b|e b]; cbn [lift]; [|by destruct e].
    rewrite (walk_children_inherited _ _ IH Hcs) by done.
    cbn [D2NB.d2m D2NB.set_d2m].
    match goal with
    | |- context [lift (D2NB.set_d2m b self) ?r] => destruct r as [b'|e b']
    end; cbn [lift]; [|reflexivity].
    rewrite nb_departure_inherited by done.
    rewrite !lift_set_d2m. reflexivity.
Qed.

(** X16: for a document that holds no node of the notebook's own classes
    (transcripts, [only] blocks, plot regions, run-role references,
    plotting hints), the notebook is the Markdown rendering of the
    document, stripped, in a single Markdown cell; no cell when nothing is
    left after stripping; and the same exception when the Markdown
    translator raises. *)
Theorem notebook_of_markdown_only (document : node) :
  markdown_only document = true ->
  D2NB.translate document
  = match D2M.translate document with
    | inl e => inl e
    | inr text =>
        inr (match strip text with
             | [] => []
             | _ :: _ => [D2NB.new_markdown_cell (strip text)]
             end)
    end.
Proof.
  intros Hdoc. unfold D2NB.translate, D2M.translate, walk_document.
  rewrite (walk_markdown_only document Hdoc) by done.
  change (D2NB.d2m (D2NB.init [])) with (D2M.init []).
  destruct (walkabout mdv mdd (D2M.init []) None document) as [b|e b];
    cbn [lift]; [|done].
  f_equal. unfold D2NB.astext, D2NB.flush_text.
  cbn [D2NB.d2m D2NB.set_d2m].
  destruct (D2M.astext b) as [b' text]. cbn [snd].
  by destruct (strip text).
Qed.

Lemma notebook_of_markdown_only_witness :
  markdown_only
    (Element "document" [] no_attributes [paragraph_of (lit " Hi ")]) = true
  /\ D2NB.translate
       (Element "document" [] no_attributes [paragraph_of (lit " Hi ")])
     = inr [D2NB.new_markdown_cell (lit "Hi")].
Proof.
  split; [reflexivity|].
  rewrite (notebook_of_markdown_only
             (Element "document" [] no_attributes [paragraph_of (lit " Hi ")])
             eq_refl).
  vm_compute. reflexivity.
Defined.
End Inherited.

(** ** The flag of the rendered-plot region over a walk *)
Section PlotFlag.
Import Spec More.
Implicit Types (self : D2NB.Translator).

#[local] Abbreviation nbv' := (dispatch_visit D2NB.Translator_class).
#[local] Abbreviation nbd' := (dispatch_departure D2NB.Translator_class).

Lemma getattr_named {T} (P : visitor_method T -> Prop)
  (tbl : list (string * visitor_method T)) name default :
  Forall (fun nm => fst nm = name -> P (snd nm)) tbl -> P default ->
  P (getattr tbl name default).
Proof.
  intros Htbl Hd. induction Htbl as [|[n m] tbl Hm _ IH]; simpl; [done|].
  destruct (String.eqb n name) eqn:E; [|done].
  apply Hm. by apply String.eqb_eq.
Qed.

Lemma inherited_keeps_flag_down (m : D2M.method) :
  keeps_flag_down (D2NB.inherited m).
Proof.
  intros self parent node. unfold D2NB.inherited.
  by destruct (m (D2NB.d2m self) parent node).
Qed.

Lemma inherited_table_keeps_flag_down
  (tbl : list (string * D2M.method)) name :
  Forall (fun nm => fst nm = name -> keeps_flag_down (snd nm))
    (map (fun nm => (fst nm, D2NB.inherited (snd nm))) tbl).
Proof.
  apply Forall_fmap, Forall_forall. intros [n m] _ _.
  apply inherited_keeps_flag_down.
Qed.

Ltac flag_cases :=
  intros _ ? ? ?;
  unfold D2NB.visit_doctest_block, D2NB.visit_only,
    D2NB.visit_nbplot_not_rendered, D2NB.visit_runrole_reference,
    D2NB.visit_literal_block, D2NB.visit_mpl_hint,
    D2NB.depart_nbplot_rendered;
  repeat case_match; unfold after;
  rewrite ?add_code_block_clears_flag;
  try done; try apply inherited_keeps_flag_down.

(** Every visit method but the one that opens a region keeps the flag
    down. *)
Lemma visit_keeps_flag_down self parent node :
  class_name node <> "nbplot_rendered" ->
  D2NB._in_nbplot (after (nbv' self parent node)) = true ->
  D2NB._in_nbplot self = true.
Proof.
  intros Hname. unfold dispatch_visit.
  apply (getattr_named keeps_flag_down
           (visits D2NB.Translator_class) (class_name node)).
  - unfold D2NB.Translator_class. cbn [visits]. apply Forall_app. split.
    + repeat (apply Forall_cons_2;
              [cbn [fst snd];
               first [ intros Heq; exfalso; apply Hname; symmetry; exact Heq
                     | flag_cases ]|]).
      apply Forall_nil_2.
    + apply inherited_table_keeps_flag_down.
  - apply inherited_keeps_flag_down.
Qed.

Lemma departure_keeps_flag_down self parent node :
  D2NB._in_nbplot (after (nbd' self parent node)) = true ->
  D2NB._in_nbplot self = true.
Proof.
  unfold dispatch_departure.
  apply (getattr_named keeps_flag_down
           (departs D2NB.Translator_class) (class_name node)).
  - unfold D2NB.Translator_class. cbn [departs]. apply Forall_app. split.
    + repeat (apply Forall_cons_2; [cbn [fst snd]; flag_cases|]).
      apply Forall_nil_2.
    + apply inherited_table_keeps_flag_down.
  - apply inherited_keeps_flag_down.
Qed.

Lemma walk_children_flag (p : option node) (children : list node) :
  Forall (fun c => forall self parent v',
            walkabout nbv' nbd' self parent c = Ok v' ->
            D2NB._in_nbplot v' = true -> D2NB._in_nbplot self = true)
    children ->
  forall self v',
    (fix walk (v : D2NB.Translator) (cs : list node) {struct cs}
       : result D2NB.Translator :=
       match cs with
       | [] => Ok v
       | c :: cs' =>
           match walkabout nbv' nbd' v p c with
           | Ok v' => walk v' cs'
           | Raise e v' => Raise e v'
           end
       end) self children = Ok v' ->
    D2NB._in_nbplot v' = true -> D2NB._in_nbplot self = true.
Proof.
  induction 1 as [|c cs Hc _ IH]; intros self v' Hwalk Hv'.
  - by injection Hwalk as ->.
  - destruct (walkabout nbv' nbd' self p c) as [v1|e v1] eqn:E; [|done].
    apply (Hc self p v1 E). by apply (IH v1 v').
Qed.

(** A completed walk of a node never leaves the flag set unless it was
    set when the walk began. *)
Lemma walk_flag (n : node) :
  forall self parent v',
    walkabout nbv' nbd' self parent n = Ok v' ->
    D2NB._in_nbplot v' = true -> D2NB._in_nbplot self = true.
Proof.
  induction n as [data|tag sep a children IH] using node_children_ind;
    intros self parent v' Hwalk Hv'.
  - change (walkabout nbv' nbd' self parent (Text data))
      with (match nbv' self parent (Text data) with
            | Ok v => nbd' v parent (Text data)
            | Raise SkipNode v => Ok v
            | Raise e v => Raise e v
            end) in Hwalk.
    pose proof (visit_keeps_flag_down self parent (Text data)
                  ltac:(done)) as H1.
    destruct (nbv' self parent (Text data)) as [v1|e v1]; simpl in H1.
    + apply H1. apply (departure_keeps_flag_down v1 parent (Text data)).
      by rewrite Hwalk.
    + destruct e; try done. injection Hwalk as ->. by apply H1.
  - rewrite walkabout_Element in Hwalk.
    destruct (String.eqb tag "nbplot_rendered") eqn:Etag.
    + apply String.eqb_eq in Etag as ->.
      change (nbv' self parent
                (Element "nbplot_rendered" sep a children))
        with (Ok (D2NB.set_in_nbplot true self) : result D2NB.Translator)
        in Hwalk.
      cbv beta iota in Hwalk.
      match type of Hwalk with
      | match ?r with _ => _ end = _ => destruct r as [v2|e v2]
      end; [|done].
      change (nbd' v2 parent (Element "nbplot_rendered" sep a children))
        with (Ok (D2NB.set_in_nbplot false v2) : result D2NB.Translator)
        in Hwalk.
      injection Hwalk as <-. done.
    + apply String.eqb_neq in Etag.
      pose proof (visit_keeps_flag_down self parent
                    (Element tag sep a children) Etag) as H1.
      destruct (nbv' self parent (Element tag sep a children))
        as [v1|e v1]; simpl in H1.
      * apply H1.
        match type of Hwalk with
        | match ?r with _ => _ end = _ => destruct r as [v2|e v2] eqn:E
        end; [|done].
        apply (walk_children_flag _ _ IH v1 v2 E).
        apply (departure_keeps_flag_down v2 parent
                 (Element tag sep a children)).
        by rewrite Hwalk.
      * destruct e; try done. injection Hwalk as ->. by apply H1.
Qed.

(** X17: the walk of any node that starts outside a rendered-plot region
    and completes ends outside one: the region a node opens is closed by
    the time its walk returns, whatever the node holds. *)
Theorem plot_region_closed (n : node) self parent v' :
  D2NB._in_nbplot self = false ->
  walkabout (dispatch_visit D2NB.Translator_class)
    (dispatch_departure D2NB.Translator_class) self parent n = Ok v' ->
  D2NB._in_nbplot v' = false.
Proof.
  intros Hself Hwalk. destruct (D2NB._in_nbplot v') eqn:E; [|done].
  rewrite <- Hself. symmetry. by apply (walk_flag n self parent v').
Qed.

Lemma plot_region_closed_witness :
  D2NB._in_nbplot (D2NB.init []) = false
  /\ D2NB._in_nbplot
       (after (walk_document D2NB.Translator_class (D2NB.init [])
                 Examples.two_blocks_in_region)) = false.
Proof.
  split; [reflexivity|].
  destruct (walk_document D2NB.Translator_class (D2NB.init [])
              Examples.two_blocks_in_region) as [v'|e v'] eqn:E.
  - exact (plot_region_closed Examples.two_blocks_in_region
             (D2NB.init []) None v' eq_refl E).
  - vm_compute in E. discriminate.
Defined.
End PlotFlag.

(** ** The matcher on a transcript laid out in lines *)
Section Layout.
Import Re Spec More.
Implicit Types (st : cursor) (p : option char) (g : list (string * str)).





































Lemma matches_Star_inv a st st' :
  matches (Star a) st st' ->
  st' = st \/ exists st1, matches a st st1 /\ matches (Star a) st1 st'.
Proof. inversion 1; subst; [by left|right; by eexists]. Qed.

























End Layout.
